(** * mixer_fixer: the live session of [components/LiveInterface.tsx]

    A shallow embedding of the React component [LiveInterface] and of the
    overlay it renders.  The component keeps its data in [useState] cells and
    [useRef] cells and is driven by callbacks (channel callbacks, timers, audio
    events); each callback is embedded as a function on the record of those
    cells, and an [async] callback is cut at its [await] into the part that
    runs before the suspension and the part that runs when it resumes.

    Conventions.
    - Audio time ([AudioContext.currentTime], [AudioBuffer.duration], the
      argument of [source.start]) is counted in sample frames of the output
      context, so it is an integer; one second is 24000 frames.
    - Wall-clock time (timers) is counted in milliseconds.
    - Timer handles returned by [setTimeout] and [setInterval] are positive
      integers, so the truthiness test [if (ref.current)] on a handle is the
      test that the ref is not [null]. *)

From stdpp Require Import gmap strings list.
From Stdlib Require Import ZArith QArith Lia.

Local Open Scope Z_scope.

(** ** Data model *)

(** [types.ts]: [enum ConnectionStatus]. *)
Inductive ConnectionStatus := DISCONNECTED | CONNECTING | CONNECTED | ERROR.

(** The three texts [setErrorMessage] is called with (the empty string, the
    connection text of [onerror], and the two texts of the [catch] block). *)
Inductive ErrorText := NoError | ConnectionFailed | ApiKeyMissing | DeviceUnavailable.

(** Values found in [call.args], which the code reads through [as any]:
    [undefined] (a missing property), [null], booleans, numbers, strings, and
    arrays of such values.  An object is not represented; like a number it
    has no [includes] method. *)
#[warnings="-register-all"]
Inductive jsval :=
| JUndefined
| JNull
| JBool (b : bool)
| JNumber (n : Z)
| JString (s : string)
| JArray (elems : list jsval).

(** [types.ts]: [interface InstructionState].  The declared field type is
    [string]; the values come from [args.action] and [args.message] unchecked,
    so at run time they are arbitrary values. *)
Record InstructionState := { action : jsval; message : jsval }.

(** A [MediaStreamTrack] is live until [track.stop()]. *)
Inductive TrackState := TrackLive | TrackEnded.

(** An [AudioContext] runs until [close()]. *)
Inductive ContextState := CtxRunning | CtxClosed.

(** An [AudioBufferSourceNode] that has been started: the offset passed to
    [source.start], the duration of its buffer, and whether [source.stop()]
    was called on it. *)
Record SourceNode := { src_when : Z; src_duration : Z; src_stopped : bool }.

Definition src_end (n : SourceNode) : Z := src_when n + src_duration n.

(** Browser timers: [setInterval(cb, period)] of the frame sampler and
    [setTimeout(cb, 8000)] of the instruction expiry, the latter with the
    wall-clock time at which it is due. *)
Inductive Timer :=
| TInterval (period : Q)
| TTimeout (due : Z).

(** What is handed to the session: [sendRealtimeInput] with the PCM blob or
    with a JPEG frame, and [sendToolResponse]. *)
Inductive Outbound :=
| RealtimeAudio (mimeType : string) (samples : list Z)
| RealtimeImage (mimeType : string) (data : string)
| ToolResponse (id : option string) (name : option string) (result : string).

(** [FunctionCall] of the SDK: every field is optional. *)
Record FunctionCall := {
  fc_id : option string;
  fc_name : option string;
  fc_args : option (gmap string jsval) }.

(** The parts of a [LiveServerMessage] that [onmessage] reads:
    [message.toolCall] with its [functionCalls],
    [message.serverContent?.modelTurn?.parts?.[0]?.inlineData?.data] and
    [message.serverContent?.interrupted]. *)
Record LiveServerMessage := {
  toolCall : option (option (list FunctionCall));
  audioData : option string;
  interrupted : bool }.

(** *** The cells of the component, grouped by the part that owns them *)

(** Playback: [nextStartTimeRef], [sourcesRef] (a [Set] of nodes, here the
    set of their indices in [nodes]), [isAiSpeaking]; [nodes] holds every
    source node created so far, in creation order; [pending] holds, for every
    [onmessage] call suspended at [await decodeAudioData], the [interrupted]
    flag of its message. *)
Record Playback := {
  nextStartTimeRef : Z;
  nodes : list SourceNode;
  sourcesRef : gset nat;
  isAiSpeaking : bool;
  pending : list bool }.

(** Instruction: [currentInstruction] and [instructionTimeoutRef]. *)
Record Instruction := {
  currentInstruction : option InstructionState;
  instructionTimeoutRef : option positive }.

(** Capture and devices: [streamRef] (the tracks of the stream),
    [inputContextRef], [audioContextRef], [frameIntervalRef], whether
    [processor.onaudioprocess] is set, and the number of [canvas.toBlob]
    compressions started and not yet delivered. *)
Record Capture := {
  streamRef : option (list TrackState);
  inputContextRef : option ContextState;
  audioContextRef : option ContextState;
  frameIntervalRef : option positive;
  onaudioprocess_set : bool;
  toBlob_pending : nat }.

(** The browser's timer table and wall clock. *)
Record Timers := {
  timers : gmap positive Timer;
  nextTimerId : positive;
  now : Z }.

(** Session: [status], [errorMessage], [sessionRef], and the calls made on
    the session object, oldest first. *)
Record Channel := {
  status : ConnectionStatus;
  errorMessage : ErrorText;
  sessionRef : option unit;
  outbox : list Outbound }.

Record State := {
  playback : Playback;
  instr : Instruction;
  capture : Capture;
  browser : Timers;
  channel : Channel }.

(** The state of a freshly mounted component (the initial values of the
    [useState] and [useRef] calls). *)
Definition initial : State := {|
  playback := {| nextStartTimeRef := 0; nodes := []; sourcesRef := ∅;
                 isAiSpeaking := false; pending := [] |};
  instr := {| currentInstruction := None; instructionTimeoutRef := None |};
  capture := {| streamRef := None; inputContextRef := None;
                audioContextRef := None; frameIntervalRef := None;
                onaudioprocess_set := false; toBlob_pending := 0 |};
  browser := {| timers := ∅; nextTimerId := 1%positive; now := 0 |};
  channel := {| status := CONNECTING; errorMessage := NoError;
                sessionRef := None; outbox := [] |} |}.

(** ** Browser operations *)

(** [source.stop()] on every node of the set. *)
Definition stop_node (n : SourceNode) : SourceNode :=
  {| src_when := src_when n; src_duration := src_duration n; src_stopped := true |}.

Definition stop_sources (srcs : gset nat) (ns : list SourceNode) : list SourceNode :=
  imap (λ i n, if decide (i ∈ srcs) then stop_node n else n) ns.

(** [clearTimeout(id)] and [clearInterval(id)]. *)
Definition clearTimer (ref : option positive) (t : Timers) : Timers :=
  match ref with
  | Some id => {| timers := delete id (timers t); nextTimerId := nextTimerId t; now := now t |}
  | None => t
  end.

(** [context.close()] when the ref is set. *)
Definition close_context (c : option ContextState) : option ContextState :=
  match c with
  | Some _ => Some CtxClosed
  | None => None
  end.

(** [stream.getTracks().forEach(track => track.stop())] when the ref is set. *)
Definition stop_tracks (st : option (list TrackState)) : option (list TrackState) :=
  match st with
  | Some tracks => Some (map (λ _, TrackEnded) tracks)
  | None => None
  end.

(** ** [stopSession] (lines 75-104) *)
Definition stopSession (s : State) : State := {|
  playback := {|
    nextStartTimeRef := nextStartTimeRef (playback s);
    nodes := stop_sources (sourcesRef (playback s)) (nodes (playback s));
    sourcesRef := ∅;
    isAiSpeaking := isAiSpeaking (playback s);
    pending := pending (playback s) |};
  instr := instr s;
  capture := {|
    streamRef := stop_tracks (streamRef (capture s));
    inputContextRef := close_context (inputContextRef (capture s));
    audioContextRef := close_context (audioContextRef (capture s));
    frameIntervalRef := frameIntervalRef (capture s);
    onaudioprocess_set := onaudioprocess_set (capture s);
    toBlob_pending := toBlob_pending (capture s) |};
  browser :=
    clearTimer (instructionTimeoutRef (instr s))
      (clearTimer (frameIntervalRef (capture s)) (browser s));
  channel := {|
    status := DISCONNECTED;
    errorMessage := errorMessage (channel s);
    sessionRef := None;
    outbox := outbox (channel s) |} |}.

(** Replacing one group of cells. *)
Definition with_playback (p : Playback) (s : State) : State :=
  {| playback := p; instr := instr s; capture := capture s;
     browser := browser s; channel := channel s |}.

Definition with_instr (i : Instruction) (s : State) : State :=
  {| playback := playback s; instr := i; capture := capture s;
     browser := browser s; channel := channel s |}.

Definition with_capture (c : Capture) (s : State) : State :=
  {| playback := playback s; instr := instr s; capture := c;
     browser := browser s; channel := channel s |}.

Definition with_browser (t : Timers) (s : State) : State :=
  {| playback := playback s; instr := instr s; capture := capture s;
     browser := t; channel := channel s |}.

Definition with_channel (c : Channel) (s : State) : State :=
  {| playback := playback s; instr := instr s; capture := capture s;
     browser := browser s; channel := c |}.

(** [session.sendRealtimeInput] / [session.sendToolResponse], reached through
    [sessionPromise.then]: the calls reach the session in the order in which
    they were requested. *)
Definition send (o : Outbound) (s : State) : State :=
  with_channel {| status := status (channel s);
                  errorMessage := errorMessage (channel s);
                  sessionRef := sessionRef (channel s);
                  outbox := outbox (channel s) ++ [o] |} s.

(** [window.setTimeout(cb, delay)]: a fresh handle, due [delay] ms from now. *)
Definition setTimeout (delay : Z) (t : Timers) : positive * Timers :=
  (nextTimerId t,
   {| timers := <[nextTimerId t := TTimeout (now t + delay)]> (timers t);
      nextTimerId := Pos.succ (nextTimerId t);
      now := now t |}).

(** [window.setInterval(cb, period)]. *)
Definition setInterval (period : Q) (t : Timers) : positive * Timers :=
  (nextTimerId t,
   {| timers := <[nextTimerId t := TInterval period]> (timers t);
      nextTimerId := Pos.succ (nextTimerId t);
      now := now t |}).

(** ** [handleInstruction] (lines 106-118) *)
Definition handleInstruction (i : InstructionState) (s : State) : State :=
  let t1 := clearTimer (instructionTimeoutRef (instr s)) (browser s) in
  let '(id, t2) := setTimeout 8000 t1 in
  with_browser t2
    (with_instr {| currentInstruction := Some i;
                   instructionTimeoutRef := Some id |} s).

(** ** [onmessage] (lines 211-281) *)

(** A callback either returns or throws; the only exception the modelled code
    raises is a [TypeError]. *)
Inductive Result (A : Type) :=
| Ok (a : A)
| ThrowTypeError.
Arguments Ok {A} a.
Arguments ThrowTypeError {A}.

(** [args.action], [args.message]: a missing property reads as [undefined]. *)
Definition get_prop (args : gmap string jsval) (k : string) : jsval :=
  default JUndefined (args !! k).

(** The tool-call branch (lines 213-238).  Reading a property of an absent
    [call.args] throws before anything is changed. *)
Definition toolCall_branch (m : LiveServerMessage) (s : State) : Result State :=
  match toolCall m with
  | Some (Some (call :: _)) =>
      if bool_decide (fc_name call = Some "displayInstruction"%string) then
        match fc_args call with
        | Some args =>
            Ok (send (ToolResponse (fc_id call) (fc_name call)
                        "Instruction displayed to user")
                  (handleInstruction
                     {| action := get_prop args "action";
                        message := get_prop args "message" |} s))
        | None => ThrowTypeError
        end
      else Ok s
  | _ => Ok s
  end.

(** The interruption branch (lines 272-280). *)
Definition interrupted_branch (s : State) : State :=
  with_playback {|
    nextStartTimeRef := 0;
    nodes := stop_sources (sourcesRef (playback s)) (nodes (playback s));
    sourcesRef := ∅;
    isAiSpeaking := false;
    pending := pending (playback s) |} s.

Definition if_interrupted (flag : bool) (s : State) : State :=
  if flag then interrupted_branch s else s.

(** The audio branch up to the [await] (lines 242-245): the speaking flag, and
    the offset raised to the output clock read at this moment. *)
Definition set_speaking (b : bool) (s : State) : State :=
  with_playback {|
    nextStartTimeRef := nextStartTimeRef (playback s);
    nodes := nodes (playback s);
    sourcesRef := sourcesRef (playback s);
    isAiSpeaking := b;
    pending := pending (playback s) |} s.

Definition audio_arrive (currentTime : Z) (flag : bool) (s : State) : State :=
  with_playback {|
    nextStartTimeRef := Z.max (nextStartTimeRef (playback s)) currentTime;
    nodes := nodes (playback s);
    sourcesRef := sourcesRef (playback s);
    isAiSpeaking := isAiSpeaking (playback s);
    pending := pending (playback s) ++ [flag] |} s.

(** The audio branch after the [await] (lines 252-268): the new source is
    started at the offset as it is now, joins the set, and the offset moves
    on by the duration of the buffer. *)
Definition audio_schedule (duration : Z) (s : State) : State :=
  let p := playback s in
  with_playback {|
    nextStartTimeRef := nextStartTimeRef p + duration;
    nodes := nodes p ++ [{| src_when := nextStartTimeRef p;
                            src_duration := duration;
                            src_stopped := false |}];
    sourcesRef := {[ length (nodes p) ]} ∪ sourcesRef p;
    isAiSpeaking := isAiSpeaking p;
    pending := pending p |} s.

(** [if (audioData)]: the payload is present and not the empty string. *)
Definition audio_present (m : LiveServerMessage) : bool :=
  match audioData m with
  | Some d => bool_decide (d ≠ ""%string)
  | None => false
  end.

(** [onmessage] from its start to its first suspension or to its end.
    [currentTime] is [audioContextRef.current.currentTime] at this moment. *)
Definition onmessage (currentTime : Z) (m : LiveServerMessage) (s : State) : State :=
  match toolCall_branch m s with
  | ThrowTypeError => s
  | Ok s1 =>
      if audio_present m then
        let s2 := set_speaking true s1 in
        match audioContextRef (capture s2) with
        | Some _ => audio_arrive currentTime (interrupted m) s2
        | None => if_interrupted (interrupted m) s2
        end
      else if_interrupted (interrupted m) s1
  end.

(** The [k]-th suspended [onmessage] resumes: [decodeAudioData] delivered a
    buffer of the given duration ([Some]), or threw ([None], the rest of the
    handler is then skipped). *)
Definition drop_pending (k : nat) (s : State) : State :=
  with_playback {|
    nextStartTimeRef := nextStartTimeRef (playback s);
    nodes := nodes (playback s);
    sourcesRef := sourcesRef (playback s);
    isAiSpeaking := isAiSpeaking (playback s);
    pending := delete k (pending (playback s)) |} s.

Definition onmessage_resume (k : nat) (decoded : option Z) (s : State) : State :=
  match pending (playback s) !! k with
  | None => s
  | Some flag =>
      match decoded with
      | Some duration =>
          if_interrupted flag (audio_schedule duration (drop_pending k s))
      | None => drop_pending k s
      end
  end.

(** The ['ended'] listener of source [i] (lines 260-263). *)
Definition on_ended (i : nat) (s : State) : State :=
  let p := playback s in
  let srcs := sourcesRef p ∖ {[ i ]} in
  with_playback {|
    nextStartTimeRef := nextStartTimeRef p;
    nodes := nodes p;
    sourcesRef := srcs;
    isAiSpeaking := if bool_decide (size srcs = 0%nat) then false else isAiSpeaking p;
    pending := pending p |} s.

(** Only a node that exists can end. *)
Definition ended_fires (i : nat) (s : State) : State :=
  if decide (i < length (nodes (playback s)))%nat then on_ended i s else s.

(** ** The audio encoder (lines 198-206) *)

(** Modelled from the spec: [createPcmBlob] of [utils/audioUtils], which is
    not among the sources.  Each sample is clamped to [-1,1] and scaled by
    32767; the result is stored as a 16-bit signed integer (the fraction is
    dropped, as a store into an [Int16Array] does), and the chunk is tagged as
    PCM audio at 16 kHz.  Samples are exact rationals. *)
Definition clamp_sample (x : Q) : Q :=
  if Qle_bool x (-1) then (-1)%Q else if Qle_bool 1 x then 1%Q else x.

Definition Qtruncate (x : Q) : Z := Z.quot (Qnum x) (Z.pos (Qden x)).

Definition float_to_int16 (x : Q) : Z := Qtruncate (clamp_sample x * 32767).

Definition pcm_mime : string := "audio/pcm;rate=16000".

Definition createPcmBlob (inputData : list Q) : Outbound :=
  RealtimeAudio pcm_mime (map float_to_int16 inputData).

(** [createScriptProcessor(4096, 1, 1)]: the size of an input block. *)
Definition bufferSize : nat := 4096.

(** [processor.onaudioprocess]: one blob per block, handed to the session,
    which is also stored in [sessionRef]. *)
Definition onaudioprocess (inputData : list Q) (s : State) : State :=
  send (createPcmBlob inputData)
    (with_channel {| status := status (channel s);
                     errorMessage := errorMessage (channel s);
                     sessionRef := Some tt;
                     outbox := outbox (channel s) |} s).

(** The script processor delivers a block only once the handler is set and
    while its context runs. *)
Definition audioprocess_fires (inputData : list Q) (s : State) : State :=
  match onaudioprocess_set (capture s), inputContextRef (capture s) with
  | true, Some CtxRunning => onaudioprocess inputData s
  | _, _ => s
  end.

(** ** The frame sampler: [startVideoStreaming] (lines 305-334) *)

Definition FPS : Q := 3 # 2.

Definition frame_period : Q := 1000 / FPS.

Definition startVideoStreaming (s : State) : State :=
  let '(id, t) := setInterval frame_period (browser s) in
  with_browser t
    (with_capture {|
       streamRef := streamRef (capture s);
       inputContextRef := inputContextRef (capture s);
       audioContextRef := audioContextRef (capture s);
       frameIntervalRef := Some id;
       onaudioprocess_set := onaudioprocess_set (capture s);
       toBlob_pending := toBlob_pending (capture s) |} s).

(** What the interval callback finds: whether [canvasRef.current] and
    [videoRef.current] are set, whether [getContext('2d')] gave a context,
    and whether the video element holds a current frame (its [readyState] is
    at least [HAVE_CURRENT_DATA]). *)
Record FrameEnv := {
  canvas_set : bool;
  video_set : bool;
  ctx2d : bool;
  video_has_frame : bool }.

(** The interval callback: it returns early without a canvas, a video element
    or a drawing context, and otherwise sizes the canvas, draws and starts
    one [canvas.toBlob]; it does not wait for the blob.  It never reads
    [readyState]: [videoWidth] and [videoHeight] size the canvas and
    [drawImage] draws whatever the element holds, so [video_has_frame] does
    not occur below. *)
Definition frame_callback (e : FrameEnv) (s : State) : State :=
  if negb (canvas_set e) || negb (video_set e) then s
  else if negb (ctx2d e) then s
  else
    with_capture {|
      streamRef := streamRef (capture s);
      inputContextRef := inputContextRef (capture s);
      audioContextRef := audioContextRef (capture s);
      frameIntervalRef := frameIntervalRef (capture s);
      onaudioprocess_set := onaudioprocess_set (capture s);
      toBlob_pending := S (toBlob_pending (capture s)) |} s.

(** The interval with handle [id] fires, if it is still in the table. *)
Definition interval_fires (id : positive) (e : FrameEnv) (s : State) : State :=
  match timers (browser s) !! id with
  | Some (TInterval _) => frame_callback e s
  | _ => s
  end.

Definition jpeg_mime : string := "image/jpeg".

(** The [toBlob] callback: a blob is encoded and sent, [null] is dropped.
    The callback is not cut at [await blobToBase64]: it reads no cell after
    it. *)
Definition toBlob_done (blob : option string) (s : State) : State :=
  match toBlob_pending (capture s) with
  | O => s
  | S n =>
      let s1 :=
        with_capture {|
          streamRef := streamRef (capture s);
          inputContextRef := inputContextRef (capture s);
          audioContextRef := audioContextRef (capture s);
          frameIntervalRef := frameIntervalRef (capture s);
          onaudioprocess_set := onaudioprocess_set (capture s);
          toBlob_pending := n |} s in
      match blob with
      | Some base64Data => send (RealtimeImage jpeg_mime base64Data) s1
      | None => s1
      end
  end.

(** ** Channel callbacks (lines 193-210 and 282-290) *)

Definition setStatus (st : ConnectionStatus) (s : State) : State :=
  with_channel {| status := st;
                  errorMessage := errorMessage (channel s);
                  sessionRef := sessionRef (channel s);
                  outbox := outbox (channel s) |} s.

Definition setErrorMessage (e : ErrorText) (s : State) : State :=
  with_channel {| status := status (channel s);
                  errorMessage := e;
                  sessionRef := sessionRef (channel s);
                  outbox := outbox (channel s) |} s.

Definition onopen (s : State) : State :=
  let s1 := setStatus CONNECTED s in
  let s2 :=
    with_capture {|
      streamRef := streamRef (capture s1);
      inputContextRef := inputContextRef (capture s1);
      audioContextRef := audioContextRef (capture s1);
      frameIntervalRef := frameIntervalRef (capture s1);
      onaudioprocess_set := true;
      toBlob_pending := toBlob_pending (capture s1) |} s1 in
  startVideoStreaming s2.

Definition onclose (s : State) : State := stopSession s.

Definition onerror (s : State) : State :=
  setStatus ERROR (setErrorMessage ConnectionFailed s).

(** ** [connectToGemini] (lines 121-303) *)

(** How the set-up goes: no API key is found; [getUserMedia] rejects; the
    stream is obtained but creating the input [AudioContext] throws; or the
    set-up reaches [ai.live.connect].  The set-up is taken in one step with
    its outcome given: it is not cut at [await getUserMedia], no statement
    below depends on what happens during that suspension. *)
Inductive SetupOutcome :=
| KeyMissing
| MediaDenied
| ContextFails (tracks : nat)
| SetupDone (tracks : nat).

Definition set_stream (tracks : nat) (s : State) : State :=
  with_capture {|
    streamRef := Some (replicate tracks TrackLive);
    inputContextRef := inputContextRef (capture s);
    audioContextRef := audioContextRef (capture s);
    frameIntervalRef := frameIntervalRef (capture s);
    onaudioprocess_set := onaudioprocess_set (capture s);
    toBlob_pending := toBlob_pending (capture s) |} s.

Definition set_contexts (s : State) : State :=
  with_capture {|
    streamRef := streamRef (capture s);
    inputContextRef := Some CtxRunning;
    audioContextRef := Some CtxRunning;
    frameIntervalRef := frameIntervalRef (capture s);
    onaudioprocess_set := onaudioprocess_set (capture s);
    toBlob_pending := toBlob_pending (capture s) |} s.

(** The [catch] block (lines 294-302). *)
Definition setup_catch (e : ErrorText) (s : State) : State :=
  setStatus ERROR (setErrorMessage e s).

Definition connectToGemini (o : SetupOutcome) (s : State) : State :=
  let s0 := setErrorMessage NoError (setStatus CONNECTING s) in
  match o with
  | KeyMissing => setup_catch ApiKeyMissing s0
  | MediaDenied => setup_catch DeviceUnavailable s0
  | ContextFails tracks => setup_catch DeviceUnavailable (set_stream tracks s0)
  | SetupDone tracks => set_contexts (set_stream tracks s0)
  end.

(** ** The instruction expiry *)

Definition is_due (t : Z) (tm : Timer) : bool :=
  match tm with
  | TTimeout due => due <=? t
  | TInterval _ => false
  end.

(** The wall clock reaches [t]: every timeout due by then has run its
    callback [setCurrentInstruction(null)] and left the table. *)
Definition clock_reaches (t : Z) (s : State) : State :=
  let t' := Z.max (now (browser s)) t in
  let due := filter (λ kv, is_due t' kv.2 = true) (timers (browser s)) in
  let rest := filter (λ kv, is_due t' kv.2 = false) (timers (browser s)) in
  let s1 := with_browser {| timers := rest;
                            nextTimerId := nextTimerId (browser s);
                            now := t' |} s in
  if bool_decide (due = ∅) then s1
  else with_instr {| currentInstruction := None;
                     instructionTimeoutRef := instructionTimeoutRef (instr s) |} s1.

(** ** [InstructionOverlay] (the overlay component) *)

Inductive Icon :=
| ArrowTrendingDownIcon | ArrowTrendingUpIcon | BoltIcon | SpeakerXMarkIcon
| AdjustmentsHorizontalIcon | CheckCircleIcon | SpeakerWaveIcon.

Inductive Glow := GlowRed | GlowBlue.

Inductive KnobHint := TurnLeft | TurnRight.

(** What the overlay shows when it renders. *)
Record Overlay := {
  ov_glow : Glow;
  ov_icon : Icon;
  ov_text : jsval;
  ov_hint : option KnobHint }.

(** [haystack.includes(needle)] on strings. *)
Fixpoint includes (needle haystack : string) : bool :=
  String.prefix needle haystack ||
  match haystack with
  | EmptyString => false
  | String _ rest => includes needle rest
  end.

(** [element === needle] for a string [needle]: strict equality holds of the
    same string only. *)
Definition is_string (needle : string) (element : jsval) : bool :=
  match element with
  | JString s => String.eqb s needle
  | _ => false
  end.

(** [action.includes(needle)].  A string has [String.prototype.includes],
    the test for a substring; an array has [Array.prototype.includes], the
    test that [needle] is one of its elements.  On [undefined] and [null]
    the property read throws, on a boolean or a number the call does. *)
Definition js_includes (action : jsval) (needle : string) : Result bool :=
  match action with
  | JString s => Ok (includes needle s)
  | JArray elems => Ok (existsb (is_string needle) elems)
  | _ => ThrowTypeError
  end.

Definition bind {A B : Type} (r : Result A) (f : A → Result B) : Result B :=
  match r with
  | Ok a => f a
  | ThrowTypeError => ThrowTypeError
  end.

(** [getIcon]: a [switch] on the action, by strict equality, so every value
    that is not a string falls to the [default] case. *)
Definition getIcon (action : jsval) : Icon :=
  match action with
  | JString s =>
      if (String.eqb s "reduce_echo" || String.eqb s "reduce_treble"
          || String.eqb s "reduce_gain")%bool then ArrowTrendingDownIcon
      else if (String.eqb s "increase_echo" || String.eqb s "increase_volume")%bool
      then ArrowTrendingUpIcon
      else if String.eqb s "fix_buzz" then BoltIcon
      else if String.eqb s "mute" then SpeakerXMarkIcon
      else if String.eqb s "check_cables" then AdjustmentsHorizontalIcon
      else if String.eqb s "success" then CheckCircleIcon
      else SpeakerWaveIcon
  | _ => SpeakerWaveIcon
  end.

(** [getVisualHint]. *)
Definition getVisualHint (action : jsval) : Result (option KnobHint) :=
  bind (js_includes action "reduce") (λ reduce,
    if reduce then Ok (Some TurnLeft)
    else bind (js_includes action "increase") (λ increase,
      if increase then Ok (Some TurnRight) else Ok None)).

(** The component: nothing without an instruction; otherwise the glow
    ([instruction.action.includes('fix')]), the icon, the message and the
    hint, evaluated in this order. *)
Definition InstructionOverlay (instruction : option InstructionState)
  : Result (option Overlay) :=
  match instruction with
  | None => Ok None
  | Some i =>
      bind (js_includes (action i) "fix") (λ fix_,
        let icon := getIcon (action i) in
        bind (getVisualHint (action i)) (λ hint,
          Ok (Some {| ov_glow := if fix_ then GlowRed else GlowBlue;
                      ov_icon := icon;
                      ov_text := message i;
                      ov_hint := hint |})))
  end.

(** ** The event loop *)

(** Everything that can call into the component: the mount effect with the
    outcome of the set-up, the channel callbacks, the audio and timer events,
    and the unmount clean-up. *)
Inductive Event :=
| EvConnect (o : SetupOutcome)
| EvOpen
| EvAudioProcess (inputData : list Q)
| EvMessage (currentTime : Z) (m : LiveServerMessage)
| EvDecoded (k : nat) (decoded : option Z)
| EvEnded (i : nat)
| EvInterval (id : positive) (e : FrameEnv)
| EvBlob (blob : option string)
| EvClock (t : Z)
| EvClose
| EvError
| EvUnmount.

Definition step (e : Event) (s : State) : State :=
  match e with
  | EvConnect o => connectToGemini o s
  | EvOpen => onopen s
  | EvAudioProcess inputData => audioprocess_fires inputData s
  | EvMessage currentTime m => onmessage currentTime m s
  | EvDecoded k decoded => onmessage_resume k decoded s
  | EvEnded i => ended_fires i s
  | EvInterval id e => interval_fires id e s
  | EvBlob blob => toBlob_done blob s
  | EvClock t => clock_reaches t s
  | EvClose => onclose s
  | EvError => onerror s
  | EvUnmount => stopSession s
  end.

(** The events of a trace, oldest first. *)
Definition run (tr : list Event) (s : State) : State :=
  foldl (λ s e, step e s) s tr.

(** A state the component can be in: [initial] after some events. *)
Definition reachable (s : State) : Prop := ∃ tr, s = run tr initial.

(** ** Derived notions used in the statements *)

(** A message on which [onmessage] calls [handleInstruction]: its first
    function call names the display tool and carries an argument object. *)
Definition sets_instruction (m : LiveServerMessage) : bool :=
  match toolCall m with
  | Some (Some (call :: _)) =>
      bool_decide (fc_name call = Some "displayInstruction"%string)
      && bool_decide (is_Some (fc_args call))
  | _ => false
  end.

(** The state after the tool-call branch of [onmessage]: the one the branch
    returns, or the unchanged state when it throws. *)
Definition after_toolCall (m : LiveServerMessage) (s : State) : State :=
  match toolCall_branch m s with
  | Ok s1 => s1
  | ThrowTypeError => s
  end.

(** An event that carries an interruption signal. *)
Definition carries_interruption (e : Event) : bool :=
  match e with
  | EvMessage _ m => interrupted m
  | _ => false
  end.






(** An event that leaves a pending instruction expiry alone: it neither sets
    an instruction nor stops the session, and it does not move the wall clock
    to [deadline] or beyond. *)
Definition quiet_before (deadline : Z) (e : Event) : bool :=
  match e with
  | EvMessage _ m => negb (sets_instruction m)
  | EvClock t => bool_decide (t < deadline)
  | EvClose | EvUnmount => false
  | _ => true
  end.

(** The same without the condition on stopping: the event does not set an
    instruction and does not move the wall clock to [deadline] or beyond. *)
Definition not_replaced_before (deadline : Z) (e : Event) : bool :=
  match e with
  | EvMessage _ m => negb (sets_instruction m)
  | EvClock t => bool_decide (t < deadline)
  | _ => true
  end.

(** Scheduled ranges in creation order: every node starts at or after the end
    of the node created just before it. *)
Definition back_to_back (ns : list SourceNode) : Prop :=
  ∀ i n1 n2, ns !! i = Some n1 → ns !! S i = Some n2 → src_end n1 ≤ src_when n2.

(** The playback offset is never behind the end of the node created last. *)
Definition offset_covers_last (p : Playback) : Prop :=
  ∀ n, last (nodes p) = Some n → src_end n ≤ nextStartTimeRef p.

Definition playback_inv (p : Playback) : Prop :=
  back_to_back (nodes p) ∧ offset_covers_last p ∧ Forall (λ b, b = false) (pending p).

(** The active set lies behind some index [k] of [nodes]; from [k] on, every
    node ends before any later node starts, and the playback offset is not
    behind the end of any of them. *)
Definition active_inv (p : Playback) : Prop :=
  ∃ k : nat,
    (k ≤ length (nodes p))%nat
    ∧ (∀ i, i ∈ sourcesRef p → (k ≤ i < length (nodes p))%nat)
    ∧ (∀ i j ni nj, (k ≤ i)%nat → (i < j)%nat →
         nodes p !! i = Some ni → nodes p !! j = Some nj → src_end ni ≤ src_when nj)
    ∧ (∀ i n, (k ≤ i)%nat → nodes p !! i = Some n → src_end n ≤ nextStartTimeRef p).

(** A decoded buffer has a duration that is not negative. *)
Definition nonneg_duration (e : Event) : bool :=
  match e with
  | EvDecoded _ (Some duration) => 0 <=? duration
  | _ => true
  end.

(** Every time-out in the timer table is the one [instructionTimeoutRef]
    holds, and no handle in use has reached the next handle to be issued. *)
Definition timers_inv (s : State) : Prop :=
  (∀ id due, timers (browser s) !! id = Some (TTimeout due) →
             instructionTimeoutRef (instr s) = Some id)
  ∧ (∀ id, is_Some (timers (browser s) !! id) → (id < nextTimerId (browser s))%positive)
  ∧ (∀ id, instructionTimeoutRef (instr s) = Some id → (id < nextTimerId (browser s))%positive).

(** The frame-sampler tick passes the guards of lines 310-313: the canvas,
    the video element and the drawing context are all there. *)
Definition frame_available (e : FrameEnv) : bool :=
  canvas_set e && video_set e && ctx2d e.

(** Instruction [i] is current and its expiry is pending, due at [deadline],
    which the wall clock has not reached. *)
Definition armed (deadline : Z) (i : InstructionState) (s : State) : Prop :=
  currentInstruction (instr s) = Some i
  ∧ (∃ id, instructionTimeoutRef (instr s) = Some id
           ∧ timers (browser s) !! id = Some (TTimeout deadline))
  ∧ now (browser s) < deadline
  ∧ timers_inv s.

(** *** Sample inputs *)

Definition msg_audio (data : string) : LiveServerMessage :=
  {| toolCall := None; audioData := Some data; interrupted := false |}.


Definition msg_interrupted : LiveServerMessage :=
  {| toolCall := None; audioData := None; interrupted := true |}.

Definition msg_tool (calls : list FunctionCall) : LiveServerMessage :=
  {| toolCall := Some (Some calls); audioData := None; interrupted := false |}.

Definition display_call (id : string) (args : gmap string jsval) : FunctionCall :=
  {| fc_id := Some id; fc_name := Some "displayInstruction"%string; fc_args := Some args |}.

Definition display_args (a m : string) : gmap string jsval :=
  {[ "action"%string := JString a; "message"%string := JString m ]}.

(** A connected session with two live tracks and the frame interval armed. *)
Definition example_connected : State :=
  run [EvConnect (SetupDone 2); EvOpen] initial.

(** The same session after an instruction was displayed and one second of
    audio was scheduled at the tenth second of the output clock. *)
Definition example_speaking : State :=
  run [EvConnect (SetupDone 2); EvOpen;
       EvMessage 0 (msg_tool [display_call "call-1" (display_args "fix_buzz" "check the cables")]);
       EvMessage 240000 (msg_audio "UklGRg==");
       EvDecoded 0 (Some 24000)] initial.

(** *** The statements of the specification that the code does not meet *)



(** The skipping of a tick in the words of the specification: a tick at
    which no current video frame is available is skipped. *)
Definition skips_without_frame : Prop :=
  ∀ s id e, video_has_frame e = false → interval_fires id e s = s.

(** The expiry in the words of the specification: an instruction that is
    not replaced within 8 seconds of being set is cleared when the 8 seconds
    are over. *)
Definition expires_unless_replaced : Prop :=
  ∀ s i tr,
    reachable s →
    Forall (λ e, not_replaced_before (now (browser s) + 8000) e = true) tr →
    currentInstruction
      (instr (clock_reaches (now (browser s) + 8000)
                (run tr (handleInstruction i s)))) = None.

(** The handling of a malformed tool call in the words of the
    specification: a call of the display tool whose arguments lack [action] or
    [message] is dropped, and the overlay does not fail. *)
Definition malformed_call_dropped : Prop :=
  ∀ s currentTime m call rest args,
    toolCall m = Some (Some (call :: rest)) →
    fc_name call = Some "displayInstruction"%string →
    fc_args call = Some args →
    args !! "action"%string = None ∨ args !! "message"%string = None →
    currentInstruction (instr (onmessage currentTime m s)) = currentInstruction (instr s)
    ∧ InstructionOverlay (currentInstruction (instr (onmessage currentTime m s)))
      ≠ ThrowTypeError.

(** ** What the component renders (lines 344-446) *)

(** The header text: the connected label only for [CONNECTED], the
    connecting label for every other status. *)
Inductive StatusLabel := LabelConnected | LabelConnecting.

(** The main screen: the instruction overlay, the header label, whether the
    centre guide is shown ([!currentInstruction]) and whether the visualizer
    is shown in place of the hint text ([isAiSpeaking]). *)
Record MainView := {
  mv_overlay : option Overlay;
  mv_label : StatusLabel;
  mv_guide : bool;
  mv_visualizer : bool }.

Inductive View :=
| ErrorPanel (text : ErrorText)
| MainScreen (v : MainView).

(** The render function of [LiveInterface]: the error panel for [ERROR],
    the main screen otherwise.  The overlay is a child of the main screen, so
    the render fails when the overlay throws. *)
Definition render (s : State) : Result View :=
  match status (channel s) with
  | ERROR => Ok (ErrorPanel (errorMessage (channel s)))
  | st =>
      bind (InstructionOverlay (currentInstruction (instr s))) (λ overlay,
        Ok (MainScreen {|
          mv_overlay := overlay;
          mv_label := match st with
                      | CONNECTED => LabelConnected
                      | _ => LabelConnecting
                      end;
          mv_guide := match currentInstruction (instr s) with
                      | None => true
                      | Some _ => false
                      end;
          mv_visualizer := isAiSpeaking (playback s) |}))
  end.

(** The [video] and [canvas] elements belong to the main screen: once a
    render is committed, [videoRef.current] and [canvasRef.current] are set
    exactly when the main screen was rendered. *)
Definition elements_rendered (s : State) : bool :=
  match render s with
  | Ok (MainScreen _) => true
  | _ => false
  end.

Definition committed_env (s : State) (ctx frame : bool) : FrameEnv :=
  {| canvas_set := elements_rendered s; video_set := elements_rendered s;
     ctx2d := ctx; video_has_frame := frame |}.

(** The actions the tool declaration lists for [displayInstruction]
    (line 40). *)
Definition tool_actions : list string :=
  ["reduce_echo"; "increase_echo"; "fix_buzz"; "reduce_treble"; "increase_treble";
   "reduce_gain"; "increase_volume"; "check_cables"; "success"; "general"]%string.

(** [needle] occurs in [haystack]. *)
Definition occurs_in (needle haystack : string) : Prop :=
  ∃ before after, haystack = (before +:+ needle +:+ after)%string.

(** ** The discovery of the API key ([index.tsx] and lines 130-142) *)

(** What the key discovery reads: [import.meta.env] (absent under a bundler
    that does not provide it), [window.process] with its [env] (either may be
    absent), and the value a bundler substitutes for the expression
    [process.env.API_KEY], if it substitutes one; without a substitution the
    identifier [process] is the property [window.process]. *)
Record Globals := {
  import_meta_env : option (gmap string string);
  window_process : option (option (gmap string string));
  defined_API_KEY : option (option string) }.

(** Truthiness of a value that is a string or [undefined]. *)
Definition truthy (v : option string) : bool :=
  match v with
  | Some k => bool_decide (k ≠ ""%string)
  | None => false
  end.

(** [a || b]. *)
Definition js_or (a b : option string) : option string :=
  if truthy a then a else b.

(** [env?.KEY]. *)
Definition env_get (env : option (gmap string string)) (k : string) : option string :=
  env ≫= (λ e, e !! k).

(** [window.process.env] once lines 10-16 of [index.tsx] have created what
    was missing. *)
Definition process_env_or_empty (g : Globals) : gmap string string :=
  match window_process g with
  | Some (Some env) => env
  | _ => ∅
  end.

(** [index.tsx], lines 8-32: the polyfill that runs before the app renders. *)
Definition index_polyfill (g : Globals) : Globals :=
  let env := process_env_or_empty g in
  let potentialKey :=
    js_or (env_get (import_meta_env g) "VITE_API_KEY")
      (js_or (env_get (import_meta_env g) "REACT_APP_API_KEY")
         (env !! "API_KEY"%string)) in
  {| import_meta_env := import_meta_env g;
     window_process :=
       Some (Some (match potentialKey with
                   | Some k => if truthy potentialKey
                               then <["API_KEY"%string := k]> env else env
                   | None => env
                   end));
     defined_API_KEY := defined_API_KEY g |}.

(** How the look-up of lines 130-142 ends: with a key, with the error
    [MISSING_API_KEY], or with the error of reading [process.env] where there
    is no [process] or no [env]. *)
Inductive KeyLookup :=
| KeyFound (k : string)
| KeyNotFound
| LookupThrows.

Definition find_api_key (g : Globals) : KeyLookup :=
  let first : option (option string) :=
    match defined_API_KEY g with
    | Some v => Some v
    | None => match window_process g with
              | Some (Some env) => Some (env !! "API_KEY"%string)
              | _ => None
              end
    end in
  match first with
  | None => LookupThrows
  | Some k1 =>
      let k2 := if truthy k1 then k1
                else env_get (window_process g ≫= id) "API_KEY" in
      let k3 := if truthy k2 then k2
                else env_get (import_meta_env g) "VITE_API_KEY" in
      match k3 with
      | Some k => if truthy k3 then KeyFound k else KeyNotFound
      | None => KeyNotFound
      end
  end.

(** How the look-up ends, given the value its three steps leave. *)
Definition lookup_result (k3 : option string) : KeyLookup :=
  match k3 with
  | Some k => if truthy k3 then KeyFound k else KeyNotFound
  | None => KeyNotFound
  end.

(** What happens after the key was found: [getUserMedia] rejects, creating
    the input context throws, or the set-up goes through. *)
Inductive MediaOutcome :=
| MediaRejects
| ContextThrows (tracks : nat)
| MediaReady (tracks : nat).

Definition media_outcome (m : MediaOutcome) : SetupOutcome :=
  match m with
  | MediaRejects => MediaDenied
  | ContextThrows tracks => ContextFails tracks
  | MediaReady tracks => SetupDone tracks
  end.

(** The mount effect (lines 336-342): [connectToGemini] with the key
    look-up written out.  An error other than [MISSING_API_KEY] gets the text
    of the device failure in the [catch] block. *)
Definition mount_effect (g : Globals) (m : MediaOutcome) (s : State) : State :=
  match find_api_key g with
  | KeyFound _ => connectToGemini (media_outcome m) s
  | KeyNotFound => connectToGemini KeyMissing s
  | LookupThrows =>
      setup_catch DeviceUnavailable (setErrorMessage NoError (setStatus CONNECTING s))
  end.

(** ** Further notions used in the statements *)

(** Every source of the active set exists and has not been stopped. *)
Definition sources_inv (p : Playback) : Prop :=
  ∀ i, i ∈ sourcesRef p → ∃ n, nodes p !! i = Some n ∧ src_stopped n = false.

(** Neither the playback offset nor the start of a source is negative. *)
Definition offsets_nonneg (p : Playback) : Prop :=
  0 ≤ nextStartTimeRef p ∧ ∀ i n, nodes p !! i = Some n → 0 ≤ src_when n.

(** Every timer of the table is held by its ref: a time-out by
    [instructionTimeoutRef], an interval by [frameIntervalRef]. *)
Definition timers_owned (s : State) : Prop :=
  ∀ id tm, timers (browser s) !! id = Some tm →
    match tm with
    | TTimeout _ => instructionTimeoutRef (instr s) = Some id
    | TInterval _ => frameIntervalRef (capture s) = Some id
    end.

(** No interval is in the timer table. *)
Definition no_interval (s : State) : Prop :=
  ∀ id period, timers (browser s) !! id ≠ Some (TInterval period).

Definition not_open (e : Event) : bool :=
  match e with
  | EvOpen => false
  | _ => true
  end.

(** The channel opens at most once in the trace. *)
Fixpoint opens_at_most_once (tr : list Event) : bool :=
  match tr with
  | [] => true
  | EvOpen :: rest => forallb not_open rest
  | _ :: rest => opens_at_most_once rest
  end.

(** The image frames among the calls made on the session. *)
Fixpoint frames_sent (out : list Outbound) : nat :=
  match out with
  | [] => 0
  | RealtimeImage _ _ :: rest => S (frames_sent rest)
  | _ :: rest => frames_sent rest
  end.

(** The interval firings of a trace that find a frame to draw. *)
Fixpoint ticks_with_frame (tr : list Event) : nat :=
  match tr with
  | [] => 0
  | EvInterval _ e :: rest =>
      if frame_available e then S (ticks_with_frame rest) else ticks_with_frame rest
  | _ :: rest => ticks_with_frame rest
  end.

(** The elementary changes of the playback cells out of which every callback
    is made.  With [flush = false] the change is not the interruption
    branch. *)
Inductive playback_op (flush : bool) : State → State → Prop :=
| op_same s s' : playback s' = playback s → playback_op flush s s'
| op_speaking s b : playback_op flush s (set_speaking b s)
| op_arrive s c flag : playback_op flush s (audio_arrive c flag s)
| op_drop s k : playback_op flush s (drop_pending k s)
| op_schedule s duration : 0 ≤ duration → playback_op flush s (audio_schedule duration s)
| op_flush s : flush = true → playback_op flush s (interrupted_branch s)
| op_stop s : playback_op flush s (stopSession s)
| op_ended s i : playback_op flush s (on_ended i s).

(** * Properties *)

(** ** Helper lemmas on the browser operations *)

Section BrowserOps.

Lemma stop_sources_length srcs ns : length (stop_sources srcs ns) = length ns.
Proof. unfold stop_sources. apply length_imap. Qed.

Lemma stop_sources_lookup srcs ns i :
  stop_sources srcs ns !! i =
  (λ n, if decide (i ∈ srcs) then stop_node n else n) <$> (ns !! i).
Proof. unfold stop_sources. apply list_lookup_imap. Qed.

Lemma stop_sources_empty ns : stop_sources ∅ ns = ns.
Proof.
  apply list_eq. intros i. rewrite stop_sources_lookup.
  destruct (ns !! i) as [n|]; simpl; [|done].
  destruct (decide (i ∈ (∅ : gset nat))) as [Hin|_]; [set_solver|done].
Qed.

Lemma stop_sources_in srcs ns i n :
  i ∈ srcs → ns !! i = Some n → stop_sources srcs ns !! i = Some (stop_node n).
Proof.
  intros Hin Hn. rewrite stop_sources_lookup, Hn. simpl.
  destruct (decide (i ∈ srcs)); [done|contradiction].
Qed.

Lemma stop_sources_notin srcs ns i :
  i ∉ srcs → stop_sources srcs ns !! i = ns !! i.
Proof.
  intros Hin. rewrite stop_sources_lookup.
  destruct (ns !! i); simpl; [|done].
  destruct (decide (i ∈ srcs)); [contradiction|done].
Qed.

(** Stopping changes neither the start offset nor the duration of a node. *)
Lemma stop_sources_ranges srcs ns :
  map (λ n, (src_when n, src_duration n)) (stop_sources srcs ns) =
  map (λ n, (src_when n, src_duration n)) ns.
Proof.
  apply list_eq. intros i. rewrite !list_lookup_fmap, stop_sources_lookup.
  destruct (ns !! i) as [n|]; simpl; [|done].
  destruct (decide (i ∈ srcs)); done.
Qed.

Lemma clearTimer_lookup ref t id :
  ref = Some id → timers (clearTimer ref t) !! id = None.
Proof. intros ->. simpl. apply lookup_delete_eq. Qed.

Lemma clearTimer_idemp ref t : clearTimer ref (clearTimer ref t) = clearTimer ref t.
Proof. destruct ref; simpl; [|done]. by rewrite delete_delete_eq. Qed.

Lemma clearTimer_comm r1 r2 t :
  clearTimer r1 (clearTimer r2 t) = clearTimer r2 (clearTimer r1 t).
Proof. destruct r1, r2; simpl; try done. by rewrite delete_delete. Qed.

Lemma clearTimer_twice r1 r2 t :
  clearTimer r1 (clearTimer r2 (clearTimer r1 (clearTimer r2 t))) =
  clearTimer r1 (clearTimer r2 t).
Proof.
  rewrite (clearTimer_comm r2 r1 (clearTimer r2 t)).
  by rewrite !clearTimer_idemp.
Qed.

Lemma clearTimer_now ref t : now (clearTimer ref t) = now t.
Proof. by destruct ref. Qed.

Lemma clearTimer_nextTimerId ref t : nextTimerId (clearTimer ref t) = nextTimerId t.
Proof. by destruct ref. Qed.

Lemma clearTimer_other ref t id :
  ref ≠ Some id → timers (clearTimer ref t) !! id = timers t !! id.
Proof.
  destruct ref as [id'|]; simpl; [|done].
  intros Hne. apply lookup_delete_ne. congruence.
Qed.

Lemma clearTimer_subseteq ref t : timers (clearTimer ref t) ⊆ timers t.
Proof. destruct ref; simpl; [apply delete_subseteq|done]. Qed.

Lemma close_context_idemp c : close_context (close_context c) = close_context c.
Proof. by destruct c. Qed.

Lemma stop_tracks_idemp st : stop_tracks (stop_tracks st) = stop_tracks st.
Proof.
  destruct st as [tracks|]; simpl; [|done].
  f_equal. rewrite map_map. done.
Qed.

End BrowserOps.

(** ** C3: [stopSession] is idempotent *)

(** C3.  Calling [stopSession] twice in succession leaves the same state as
    calling it once, from every state; and one call ends every track of the
    stream, removes the frame interval and the instruction time-out from the
    timer table, closes the output and the input audio context, discards the
    session handle, stops every source of the active set and empties the set,
    and sets the status to [DISCONNECTED]. *)
Theorem stopSession_idempotent (s : State) :
  stopSession (stopSession s) = stopSession s
  ∧ (∀ tracks, streamRef (capture s) = Some tracks →
       ∃ tracks', streamRef (capture (stopSession s)) = Some tracks'
                  ∧ length tracks' = length tracks
                  ∧ Forall (λ t, t = TrackEnded) tracks')
  ∧ (∀ id, frameIntervalRef (capture s) = Some id →
       timers (browser (stopSession s)) !! id = None)
  ∧ (∀ id, instructionTimeoutRef (instr s) = Some id →
       timers (browser (stopSession s)) !! id = None)
  ∧ (∀ c, audioContextRef (capture s) = Some c →
       audioContextRef (capture (stopSession s)) = Some CtxClosed)
  ∧ (∀ c, inputContextRef (capture s) = Some c →
       inputContextRef (capture (stopSession s)) = Some CtxClosed)
  ∧ sessionRef (channel (stopSession s)) = None
  ∧ (∀ i n, i ∈ sourcesRef (playback s) → nodes (playback s) !! i = Some n →
       nodes (playback (stopSession s)) !! i = Some (stop_node n))
  ∧ sourcesRef (playback (stopSession s)) = ∅
  ∧ status (channel (stopSession s)) = DISCONNECTED.
Proof.
  repeat split.
  - unfold stopSession; simpl. f_equal.
    + f_equal. apply stop_sources_empty.
    + f_equal; auto using stop_tracks_idemp, close_context_idemp.
    + apply clearTimer_twice.
  - intros tracks Hs. exists (map (λ _, TrackEnded) tracks). simpl. rewrite Hs.
    split; [done|]. split; [apply length_map|].
    apply Forall_forall. intros t Ht. apply list_elem_of_fmap in Ht.
    by destruct Ht as (? & -> & _).
  - intros id Hid. simpl. rewrite clearTimer_comm. by apply clearTimer_lookup.
  - intros id Hid. simpl. by apply clearTimer_lookup.
  - intros c Hc. simpl. by rewrite Hc.
  - intros c Hc. simpl. by rewrite Hc.
  - intros i n Hi Hn. simpl. by apply stop_sources_in.
Qed.

Lemma stopSession_idempotent_witness :
  stopSession (stopSession example_speaking) = stopSession example_speaking
  ∧ (∃ tracks', streamRef (capture (stopSession example_speaking)) = Some tracks'
                ∧ length tracks' = 2%nat
                ∧ Forall (λ t, t = TrackEnded) tracks')
  ∧ timers (browser (stopSession example_speaking)) !! 1%positive = None
  ∧ timers (browser (stopSession example_speaking)) !! 2%positive = None
  ∧ audioContextRef (capture (stopSession example_speaking)) = Some CtxClosed
  ∧ inputContextRef (capture (stopSession example_speaking)) = Some CtxClosed
  ∧ nodes (playback (stopSession example_speaking)) !! 0%nat =
      Some {| src_when := 240000; src_duration := 24000; src_stopped := true |}.
Proof.
  destruct (stopSession_idempotent example_speaking)
    as (Hidem & Htracks & Hframe & Htimeout & Hout & Hin & _ & Hnodes & _ & _).
  split; [exact Hidem|].
  split; [apply (Htracks [TrackLive; TrackLive]); reflexivity|].
  split; [apply Hframe; reflexivity|].
  split; [apply Htimeout; reflexivity|].
  split; [apply (Hout CtxRunning); reflexivity|].
  split; [apply (Hin CtxRunning); reflexivity|].
  apply (Hnodes 0%nat {| src_when := 240000; src_duration := 24000; src_stopped := false |}).
  - apply (bool_decide_unpack _). vm_compute. exact I.
  - reflexivity.
Defined.

(** ** C2 and C10: the interruption branch *)


(** What [onmessage] does to the playback cells of a message that arrives with
    audio while the output context exists. *)
Lemma onmessage_audio currentTime m s :
  toolCall m = None → audio_present m = true →
  is_Some (audioContextRef (capture s)) →
  onmessage currentTime m s =
  audio_arrive currentTime (interrupted m) (set_speaking true s).
Proof.
  intros Htool Haudio [c Hc]. unfold onmessage, toolCall_branch.
  rewrite Htool, Haudio. simpl. by rewrite Hc.
Qed.






Lemma clock_reaches_instr t s1 s2 :
  instr s1 = instr s2 → browser s1 = browser s2 →
  instr (clock_reaches t s1) = instr (clock_reaches t s2)
  ∧ browser (clock_reaches t s1) = browser (clock_reaches t s2).
Proof.
  intros Hi Hb. unfold clock_reaches. rewrite Hb.
  case_bool_decide; simpl; by rewrite ?Hi.
Qed.

(** C10.  The interruption branch changes nothing but the playback cells: the
    current instruction, [instructionTimeoutRef], the timer table (so the
    pending expiry and its due time), the capture cells and the channel cells
    are what they were; the overlay renders the same instruction; the expiry
    fires as it would have; and within the playback cells the pending decodes
    and the offsets and durations of the nodes are untouched. *)
Theorem interruption_preserves_instruction (s : State) :
  instr (interrupted_branch s) = instr s
  ∧ browser (interrupted_branch s) = browser s
  ∧ capture (interrupted_branch s) = capture s
  ∧ channel (interrupted_branch s) = channel s
  ∧ InstructionOverlay (currentInstruction (instr (interrupted_branch s))) =
    InstructionOverlay (currentInstruction (instr s))
  ∧ (∀ t, instr (clock_reaches t (interrupted_branch s)) = instr (clock_reaches t s))
  ∧ pending (playback (interrupted_branch s)) = pending (playback s)
  ∧ map (λ n, (src_when n, src_duration n)) (nodes (playback (interrupted_branch s))) =
    map (λ n, (src_when n, src_duration n)) (nodes (playback s)).
Proof.
  repeat split.
  - intros t. by apply clock_reaches_instr.
  - apply stop_sources_ranges.
Qed.

(** ** C1: the playback scheduler *)

Section Scheduler.

Lemma handleInstruction_playback i s :
  playback (handleInstruction i s) = playback s
  ∧ capture (handleInstruction i s) = capture s
  ∧ channel (handleInstruction i s) = channel s.
Proof. done. Qed.

Lemma toolCall_branch_playback m s s' :
  toolCall_branch m s = Ok s' →
  playback s' = playback s ∧ capture s' = capture s.
Proof.
  unfold toolCall_branch. intros H.
  destruct (toolCall m) as [[[|call rest]|]|]; try (by inversion H).
  case_bool_decide; [|by inversion H].
  destruct (fc_args call); by inversion H.
Qed.

Lemma back_to_back_snoc ns n :
  back_to_back ns →
  (∀ n0, last ns = Some n0 → src_end n0 ≤ src_when n) →
  back_to_back (ns ++ [n]).
Proof.
  intros Hns Hlast i n1 n2 H1 H2.
  destruct (decide (S i < length ns)%nat) as [Hlt|Hge].
  - rewrite lookup_app_l in H1 by lia. rewrite lookup_app_l in H2 by lia. eauto.
  - apply lookup_lt_Some in H2 as Hlen. rewrite length_app in Hlen. simpl in Hlen.
    assert (S i = length ns) as Hi by lia.
    rewrite lookup_app_l in H1 by lia.
    rewrite lookup_app_r in H2 by lia.
    replace (S i - length ns)%nat with 0%nat in H2 by lia.
    simpl in H2. inversion H2; subst n2.
    apply Hlast. rewrite last_lookup. replace (pred (length ns)) with i by lia. done.
Qed.

Lemma back_to_back_stop srcs ns :
  back_to_back ns → back_to_back (stop_sources srcs ns).
Proof.
  intros Hns i n1 n2. rewrite !stop_sources_lookup.
  destruct (ns !! i) as [m1|] eqn:H1; [|done].
  destruct (ns !! S i) as [m2|] eqn:H2; [|done].
  simpl. intros [= <-] [= <-]. specialize (Hns i m1 m2 H1 H2).
  unfold src_end in *. repeat case_decide; simpl; lia.
Qed.

Lemma last_stop_sources srcs ns n :
  last (stop_sources srcs ns) = Some n →
  ∃ n0, last ns = Some n0 ∧ src_end n0 = src_end n.
Proof.
  rewrite !last_lookup, stop_sources_length, stop_sources_lookup.
  destruct (ns !! pred (length ns)) as [n0|]; [|done].
  simpl. intros [= <-]. exists n0. split; [done|].
  case_decide; done.
Qed.

Lemma playback_inv_stop p :
  playback_inv p →
  playback_inv {| nextStartTimeRef := nextStartTimeRef p;
                  nodes := stop_sources (sourcesRef p) (nodes p);
                  sourcesRef := ∅;
                  isAiSpeaking := isAiSpeaking p;
                  pending := pending p |}.
Proof.
  intros (Hb & Hl & Hp). split; [|split]; simpl; [by apply back_to_back_stop| |done].
  intros n Hn. simpl in Hn. apply last_stop_sources in Hn as (n0 & Hn0 & <-).
  by apply Hl.
Qed.

(** Every event that carries no interruption keeps the scheduled ranges back
    to back. *)
Lemma playback_inv_step e s :
  carries_interruption e = false →
  playback_inv (playback s) → playback_inv (playback (step e s)).
Proof.
  intros He Hinv. destruct e; simpl in *; try done.
  - by destruct o.
  - unfold audioprocess_fires. by repeat case_match.
  - unfold onmessage. destruct (toolCall_branch m s) as [s1|] eqn:Htool; [|done].
    apply toolCall_branch_playback in Htool as [Hp Hc].
    rewrite He. destruct (audio_present m); simpl; [|by rewrite Hp].
    rewrite Hc. destruct (audioContextRef (capture s)); simpl; rewrite Hp.
    + destruct Hinv as (Hb & Hl & Hpend). split; [|split]; simpl; [done| |].
      * intros n Hn. specialize (Hl n Hn). simpl. lia.
      * apply Forall_app. split; [done|]. by apply Forall_singleton.
    + by destruct Hinv.
  - unfold onmessage_resume.
    destruct (pending (playback s) !! k) as [flag|] eqn:Hk; [|done].
    destruct Hinv as (Hb & Hl & Hpend).
    assert (flag = false) as ->.
    { rewrite Forall_forall in Hpend. apply Hpend.
      apply list_elem_of_lookup. eauto. }
    destruct decoded as [duration|]; simpl.
    + split; [|split]; simpl.
      * apply back_to_back_snoc; [done|]. intros n0 Hn0. simpl. by apply Hl.
      * intros n Hn. simpl in Hn. rewrite last_snoc in Hn.
        inversion Hn; subst n. unfold src_end. simpl. lia.
      * by apply Forall_delete.
    + split; [|split]; simpl; [done|done|by apply Forall_delete].
  - unfold ended_fires. case_decide; [|done]. by destruct Hinv.
  - unfold interval_fires. destruct (timers (browser s) !! id) as [[|]|]; try done.
    unfold frame_callback.
    destruct (negb (canvas_set e) || negb (video_set e)); [done|].
    by destruct (negb (ctx2d e)).
  - unfold toBlob_done. destruct (toBlob_pending (capture s)); [done|].
    by destruct blob.
  - unfold clock_reaches. by case_bool_decide.
  - by apply playback_inv_stop.
  - by apply playback_inv_stop.
Qed.

Lemma playback_inv_run tr s :
  Forall (λ e, carries_interruption e = false) tr →
  playback_inv (playback s) → playback_inv (playback (run tr s)).
Proof.
  revert s. induction tr as [|e tr IH]; intros s Htr Hs; [done|].
  inversion Htr; subst. simpl. apply IH; [done|]. by apply playback_inv_step.
Qed.

Lemma playback_inv_initial : playback_inv (playback initial).
Proof.
  split; [|split]; simpl; [|done|done].
  intros i n1 n2 H. by rewrite lookup_nil in H.
Qed.

End Scheduler.

(** *** Between two schedulings *)

Section Between.








End Between.


(** The clamp is not repeated when the decode completes.  A payload arrives
    after silence at frame 240000; a tool call arrives at frame 242400 while
    the payload is being decoded; the segment is then started at frame
    240000, behind an output clock that had already been reached. *)
Example start_behind_the_clock :
  map (λ n, (src_when n, src_duration n))
    (nodes (playback
       (run [EvMessage 240000 (msg_audio "QQ==");
             EvMessage 242400 (msg_tool [display_call "call-2" (display_args "success" "done")]);
             EvDecoded 0 (Some 24000)] example_connected))) =
  [(240000, 24000)].
Proof. reflexivity. Qed.

(** Two payloads arrive in the order A, B and their decodes complete in the
    order B, A: the segments are scheduled in the order of completion, B at
    the offset and A behind it, so B does not start at the end of A. *)
Example out_of_order_completion :
  map (λ n, (src_when n, src_duration n))
    (nodes (playback
       (run [EvMessage 0 (msg_audio "QQ=="); EvMessage 2400 (msg_audio "Qg==");
             EvDecoded 1 (Some 12000); EvDecoded 0 (Some 24000)] example_connected))) =
  [(2400, 12000); (14400, 24000)].
Proof. reflexivity. Qed.



(** The scenario of the specification: a second payload that arrives 0.2 s
    after a first one of 1 s is scheduled at 1 s and ends at 1.5 s. *)
Example scenario_two_payloads :
  map (λ n, (src_when n, src_end n))
    (nodes (playback
       (run [EvMessage 0 (msg_audio "QQ=="); EvDecoded 0 (Some 24000);
             EvMessage 4800 (msg_audio "Qg=="); EvDecoded 0 (Some 12000)]
          example_connected))) =
  [(0, 24000); (24000, 36000)].
Proof. reflexivity. Qed.

(** *** The active segments never overlap *)

Section ActiveSet.

Lemma active_inv_cleared p : sourcesRef p = ∅ → active_inv p.
Proof.
  intros Hempty. exists (length (nodes p)). split; [done|]. split; [|split].
  - intros i. rewrite Hempty. set_solver.
  - intros i j ni nj Hi _ Hni. apply lookup_lt_Some in Hni. lia.
  - intros i n Hi Hn. apply lookup_lt_Some in Hn. lia.
Qed.

Lemma active_inv_if_interrupted flag s :
  active_inv (playback s) → active_inv (playback (if_interrupted flag s)).
Proof. destruct flag; [intros _; by apply active_inv_cleared|done]. Qed.

Lemma active_inv_arrive currentTime flag s :
  active_inv (playback s) → active_inv (playback (audio_arrive currentTime flag s)).
Proof.
  intros (k & Hk & Hact & Hchain & Hoff). exists k. simpl.
  split; [done|]. split; [done|]. split; [done|].
  intros i n Hi Hn. specialize (Hoff i n Hi Hn). lia.
Qed.

Lemma active_inv_schedule duration s :
  0 ≤ duration →
  active_inv (playback s) → active_inv (playback (audio_schedule duration s)).
Proof.
  intros Hd (k & Hk & Hact & Hchain & Hoff). exists k. simpl.
  rewrite length_app. simpl. split; [lia|]. split; [|split].
  - intros i [->%elem_of_singleton|Hi]%elem_of_union; [lia|].
    specialize (Hact i Hi). lia.
  - intros i j ni nj Hi Hij Hni Hnj.
    apply lookup_lt_Some in Hnj as Hlen. rewrite length_app in Hlen. simpl in Hlen.
    rewrite lookup_app_l in Hni by lia.
    destruct (decide (j < length (nodes (playback s)))%nat) as [Hj|Hj].
    + rewrite lookup_app_l in Hnj by lia. eauto.
    + rewrite lookup_app_r in Hnj by lia.
      replace (j - length (nodes (playback s)))%nat with 0%nat in Hnj by lia.
      simpl in Hnj. inversion Hnj; subst nj. simpl. eauto.
  - intros i n Hi Hn.
    destruct (decide (i < length (nodes (playback s)))%nat) as [Hlt|Hge].
    + rewrite lookup_app_l in Hn by lia. specialize (Hoff i n Hi Hn). lia.
    + apply lookup_lt_Some in Hn as Hlen. rewrite length_app in Hlen. simpl in Hlen.
      rewrite lookup_app_r in Hn by lia.
      replace (i - length (nodes (playback s)))%nat with 0%nat in Hn by lia.
      simpl in Hn. inversion Hn; subst n. unfold src_end. simpl. lia.
Qed.

Lemma active_inv_shrink p srcs :
  srcs ⊆ sourcesRef p →
  active_inv p →
  ∀ b, active_inv {| nextStartTimeRef := nextStartTimeRef p; nodes := nodes p;
                     sourcesRef := srcs; isAiSpeaking := b; pending := pending p |}.
Proof.
  intros Hsub (k & Hk & Hact & Hchain & Hoff) b. exists k. simpl.
  split; [done|]. split; [|done]. intros i Hi. by apply Hact, Hsub.
Qed.

Lemma active_inv_step e s :
  nonneg_duration e = true →
  active_inv (playback s) → active_inv (playback (step e s)).
Proof.
  intros He Hinv. destruct e; simpl.
  - by destruct o.
  - done.
  - unfold audioprocess_fires. by repeat case_match.
  - unfold onmessage. destruct (toolCall_branch m s) as [s1|] eqn:Htool; [|done].
    apply toolCall_branch_playback in Htool as [Hp Hc].
    assert (active_inv (playback s1)) as Hinv1 by (by rewrite Hp).
    destruct (audio_present m).
    + assert (active_inv (playback (set_speaking true s1))) as Hinv2
        by (simpl; by apply (active_inv_shrink (playback s1))).
      destruct (audioContextRef (capture (set_speaking true s1))).
      * by apply active_inv_arrive.
      * by apply active_inv_if_interrupted.
    + by apply active_inv_if_interrupted.
  - unfold onmessage_resume.
    destruct (pending (playback s) !! k) as [flag|]; [|done].
    assert (active_inv (playback (drop_pending k s))) as Hinv1.
    { destruct Hinv as (k0 & ?). by exists k0. }
    destruct decoded as [duration|]; [|done].
    apply active_inv_if_interrupted, active_inv_schedule; [|done].
    simpl in He. by apply Z.leb_le.
  - unfold ended_fires. case_decide; [|done]. simpl.
    apply (active_inv_shrink (playback s)); [by apply subseteq_difference_l|done].
  - unfold interval_fires. destruct (timers (browser s) !! id) as [[|]|]; try done.
    unfold frame_callback.
    destruct (negb (canvas_set e) || negb (video_set e)); [done|].
    by destruct (negb (ctx2d e)).
  - unfold toBlob_done. destruct (toBlob_pending (capture s)); [done|].
    by destruct blob.
  - unfold clock_reaches. cbv zeta. by case_bool_decide.
  - by apply active_inv_cleared.
  - done.
  - by apply active_inv_cleared.
Qed.

Lemma active_inv_run tr s :
  Forall (λ e, nonneg_duration e = true) tr →
  active_inv (playback s) → active_inv (playback (run tr s)).
Proof.
  revert s. induction tr as [|e tr IH]; intros s Htr Hs; [done|].
  inversion Htr; subst. simpl. apply IH; [done|]. by apply active_inv_step.
Qed.

(** X1.  Invariant (a) of the data model: in every state the component
    reaches, interruptions and stops included, two segments of the active
    set have disjoint scheduled ranges, the one created first ending before
    the other starts. *)
Theorem active_segments_never_overlap tr i j ni nj :
  Forall (λ e, nonneg_duration e = true) tr →
  i ∈ sourcesRef (playback (run tr initial)) →
  j ∈ sourcesRef (playback (run tr initial)) →
  (i < j)%nat →
  nodes (playback (run tr initial)) !! i = Some ni →
  nodes (playback (run tr initial)) !! j = Some nj →
  src_end ni ≤ src_when nj.
Proof.
  intros Htr Hi Hj Hij Hni Hnj.
  destruct (active_inv_run tr initial Htr) as (k & _ & Hact & Hchain & _).
  { by apply active_inv_cleared. }
  apply (Hchain i j); [|done..]. apply Hact in Hi. lia.
Qed.

End ActiveSet.

(** ** C5, C6, C7: the instruction channel *)

Section InstructionChannel.

Lemma timers_inv_ext s s' :
  instr s' = instr s → browser s' = browser s → timers_inv s → timers_inv s'.
Proof. unfold timers_inv. by intros -> ->. Qed.

Lemma timers_inv_shrink s s' :
  instructionTimeoutRef (instr s') = instructionTimeoutRef (instr s) →
  timers (browser s') ⊆ timers (browser s) →
  nextTimerId (browser s') = nextTimerId (browser s) →
  timers_inv s → timers_inv s'.
Proof.
  intros Hi Hsub Hnext (Hown & Hfresh & Href). unfold timers_inv.
  rewrite Hi, Hnext. split; [|split]; [| |done].
  - intros id due Hid. eapply Hown, lookup_weaken; eauto.
  - intros id [tm Hid]. apply Hfresh. exists tm. eapply lookup_weaken; eauto.
Qed.

Lemma timers_inv_initial : timers_inv initial.
Proof.
  split; [|split]; simpl.
  - intros id due H. by rewrite lookup_empty in H.
  - intros id [tm H]. by rewrite lookup_empty in H.
  - done.
Qed.

Lemma timers_inv_startVideoStreaming s :
  timers_inv s → timers_inv (startVideoStreaming s).
Proof.
  intros (Hown & Hfresh & Href). split; [|split]; simpl.
  - intros id due. rewrite lookup_insert_Some. intros [[_ [=]]|[_ Hid]]. eauto.
  - intros id [tm Hid]. apply lookup_insert_Some in Hid as [[<- _]|[_ Hid]]; [lia|].
    assert (id < nextTimerId (browser s))%positive by eauto. lia.
  - intros id Hid. apply Href in Hid. lia.
Qed.

Lemma timers_inv_handleInstruction i s :
  timers_inv s → timers_inv (handleInstruction i s).
Proof.
  intros (Hown & Hfresh & Href). split; [|split]; simpl.
  - intros id due. rewrite clearTimer_nextTimerId, lookup_insert_Some.
    intros [[<- _]|[Hne Hid]]; [done|]. exfalso.
    assert (timers (browser s) !! id = Some (TTimeout due)) as Hold
      by (eapply lookup_weaken; [exact Hid|apply clearTimer_subseteq]).
    apply Hown in Hold. by rewrite (clearTimer_lookup _ _ _ Hold) in Hid.
  - intros id [tm Hid]. rewrite clearTimer_nextTimerId in *.
    apply lookup_insert_Some in Hid as [[<- _]|[_ Hid]]; [lia|].
    assert (id < nextTimerId (browser s))%positive; [|lia].
    apply Hfresh. exists tm. eapply lookup_weaken; [exact Hid|apply clearTimer_subseteq].
  - intros id [= <-]. rewrite clearTimer_nextTimerId. lia.
Qed.

Lemma onmessage_instr currentTime m s :
  instr (onmessage currentTime m s) = instr (after_toolCall m s)
  ∧ browser (onmessage currentTime m s) = browser (after_toolCall m s)
  ∧ channel (onmessage currentTime m s) = channel (after_toolCall m s).
Proof.
  unfold onmessage, after_toolCall.
  destruct (toolCall_branch m s) as [s1|]; [|done].
  destruct (audio_present m); simpl.
  - destruct (audioContextRef (capture s1)); [done|].
    by destruct (interrupted m).
  - by destruct (interrupted m).
Qed.

Lemma toolCall_branch_sets m s :
  sets_instruction m = true →
  ∃ call rest args,
    toolCall m = Some (Some (call :: rest))
    ∧ fc_name call = Some "displayInstruction"%string
    ∧ fc_args call = Some args
    ∧ toolCall_branch m s =
      Ok (send (ToolResponse (fc_id call) (fc_name call) "Instruction displayed to user")
            (handleInstruction {| action := get_prop args "action";
                                  message := get_prop args "message" |} s)).
Proof.
  unfold sets_instruction, toolCall_branch.
  destruct (toolCall m) as [[[|call rest]|]|]; try done.
  intros [Hname Hargs]%andb_prop.
  apply bool_decide_eq_true in Hname. apply bool_decide_eq_true in Hargs as [args Hargs].
  exists call, rest, args. rewrite Hargs. by rewrite bool_decide_eq_true_2.
Qed.

Lemma after_toolCall_quiet m s :
  sets_instruction m = false → after_toolCall m s = s.
Proof.
  unfold sets_instruction, after_toolCall, toolCall_branch.
  destruct (toolCall m) as [[[|call rest]|]|]; try done.
  case_bool_decide; [|done]. simpl.
  destruct (fc_args call) as [args|]; [|done].
  rewrite bool_decide_eq_false. intros []. eauto.
Qed.

Lemma timers_inv_after_toolCall m s :
  timers_inv s → timers_inv (after_toolCall m s).
Proof.
  intros Hs. destruct (sets_instruction m) eqn:Hm.
  - destruct (toolCall_branch_sets m s Hm) as (call & rest & args & _ & _ & _ & Hb).
    unfold after_toolCall. rewrite Hb.
    eapply timers_inv_ext; [| |by apply timers_inv_handleInstruction]; done.
  - by rewrite after_toolCall_quiet.
Qed.

Lemma clock_reaches_browser t s :
  browser (clock_reaches t s) =
  {| timers := filter (λ kv, is_due (Z.max (now (browser s)) t) kv.2 = false)
                 (timers (browser s));
     nextTimerId := nextTimerId (browser s);
     now := Z.max (now (browser s)) t |}.
Proof. unfold clock_reaches. cbv zeta. by case_bool_decide. Qed.

Lemma clock_reaches_ref t s :
  instructionTimeoutRef (instr (clock_reaches t s)) = instructionTimeoutRef (instr s).
Proof. unfold clock_reaches. cbv zeta. by case_bool_decide. Qed.

Lemma timers_inv_clock t s : timers_inv s → timers_inv (clock_reaches t s).
Proof.
  intros Hs. eapply (timers_inv_shrink s); [| | |done].
  - apply clock_reaches_ref.
  - rewrite clock_reaches_browser. simpl. apply map_filter_subseteq.
  - by rewrite clock_reaches_browser.
Qed.

Lemma timers_inv_stopSession s : timers_inv s → timers_inv (stopSession s).
Proof.
  intros Hs. eapply (timers_inv_shrink s); [done| | |done]; simpl.
  - etrans; apply clearTimer_subseteq.
  - by rewrite !clearTimer_nextTimerId.
Qed.

Lemma timers_inv_step e s : timers_inv s → timers_inv (step e s).
Proof.
  intros Hs. destruct e; simpl.
  - eapply timers_inv_ext; [| |exact Hs]; by destruct o.
  - by apply timers_inv_startVideoStreaming.
  - eapply timers_inv_ext; [| |exact Hs]; unfold audioprocess_fires; by repeat case_match.
  - destruct (onmessage_instr currentTime m s) as (Hi & Hb & _).
    eapply timers_inv_ext; [exact Hi|exact Hb|]. by apply timers_inv_after_toolCall.
  - eapply timers_inv_ext; [| |exact Hs]; unfold onmessage_resume;
      destruct (pending (playback s) !! k) as [[|]|]; try done;
      by destruct decoded.
  - eapply timers_inv_ext; [| |exact Hs]; unfold ended_fires; by case_decide.
  - eapply timers_inv_ext; [| |exact Hs]; unfold interval_fires, frame_callback;
      destruct (timers (browser s) !! id) as [[|]|]; try done;
      destruct (negb (canvas_set e) || negb (video_set e)); try done;
      by destruct (negb (ctx2d e)).
  - eapply timers_inv_ext; [| |exact Hs]; unfold toBlob_done;
      destruct (toBlob_pending (capture s)); try done; by destruct blob.
  - by apply timers_inv_clock.
  - by apply timers_inv_stopSession.
  - by eapply timers_inv_ext; [| |exact Hs].
  - by apply timers_inv_stopSession.
Qed.

Lemma timers_inv_run tr s : timers_inv s → timers_inv (run tr s).
Proof.
  revert s. induction tr as [|e tr IH]; intros s Hs; [done|].
  simpl. by apply IH, timers_inv_step.
Qed.

Lemma timers_inv_reachable s : reachable s → timers_inv s.
Proof. intros [tr ->]. apply timers_inv_run, timers_inv_initial. Qed.

End InstructionChannel.

Section Expiry.

Lemma armed_ext deadline i s s' :
  instr s' = instr s → browser s' = browser s →
  armed deadline i s → armed deadline i s'.
Proof.
  unfold armed. intros Hi Hb (Hcur & Hid & Hnow & Hinv).
  rewrite Hi, Hb. split; [done|]. split; [done|]. split; [done|].
  by apply (timers_inv_ext s).
Qed.

Lemma armed_handleInstruction i s :
  timers_inv s → armed (now (browser s) + 8000) i (handleInstruction i s).
Proof.
  intros Hs. split; [done|]. split; [|split].
  - eexists. split; [done|]. simpl. rewrite clearTimer_now. apply lookup_insert_eq.
  - simpl. rewrite clearTimer_now. lia.
  - by apply timers_inv_handleInstruction.
Qed.

(** While the time-out of the current instruction is pending, nothing in the
    timer table is due. *)
Lemma armed_nothing_due deadline i s t :
  armed deadline i s → t < deadline →
  filter (λ kv, is_due t kv.2 = true) (timers (browser s)) = ∅.
Proof.
  intros (_ & (id & Href & Hid) & _ & (Hown & _ & _)) Ht.
  apply map_empty. intros id'. apply map_lookup_filter_None.
  destruct (timers (browser s) !! id') as [tm|] eqn:Hid'; [right|by left].
  intros tm' [= <-]. simpl. destruct tm as [period|due]; simpl; [done|].
  assert (id' = id) as -> by (apply Hown in Hid'; congruence).
  assert (due = deadline) as -> by congruence.
  intros Hdue. apply Z.leb_le in Hdue. lia.
Qed.

Lemma armed_clock deadline i s t :
  t < deadline → armed deadline i s → armed deadline i (clock_reaches t s).
Proof.
  intros Ht Harmed.
  assert (Z.max (now (browser s)) t < deadline) as Hmax
    by (destruct Harmed as (_ & _ & Hnow & _); lia).
  pose proof (armed_nothing_due deadline i s _ Harmed Hmax) as Hnone.
  destruct Harmed as (Hcur & (id & Href & Hid) & Hnow & Hinv).
  split; [|split; [|split]].
  - unfold clock_reaches. cbv zeta. rewrite Hnone. by rewrite bool_decide_eq_true_2.
  - exists id. rewrite clock_reaches_ref, clock_reaches_browser. split; [done|].
    simpl. apply map_lookup_filter_Some_2; [done|]. simpl.
    apply Z.leb_gt. lia.
  - rewrite clock_reaches_browser. simpl. lia.
  - by apply timers_inv_clock.
Qed.

Lemma armed_onopen deadline i s : armed deadline i s → armed deadline i (onopen s).
Proof.
  intros (Hcur & (id & Href & Hid) & Hnow & Hinv).
  split; [done|]. split; [|split]; [|done|].
  - exists id. split; [done|]. simpl. rewrite lookup_insert_ne; [done|].
    destruct Hinv as (_ & _ & Hfresh). apply Hfresh in Href. simpl in Href. lia.
  - by apply (timers_inv_step EvOpen).
Qed.

Lemma armed_step deadline i e s :
  quiet_before deadline e = true →
  armed deadline i s → armed deadline i (step e s).
Proof.
  intros He Hs. destruct e; simpl in He; try discriminate He; simpl.
  - apply (armed_ext deadline i s); [| |done]; by destruct o.
  - by apply armed_onopen.
  - apply (armed_ext deadline i s); [| |done]; unfold audioprocess_fires; by repeat case_match.
  - destruct (onmessage_instr currentTime m s) as (Hi & Hb & _).
    apply negb_true_iff in He. rewrite (after_toolCall_quiet m s He) in Hi, Hb.
    by apply (armed_ext deadline i s).
  - apply (armed_ext deadline i s); [| |done]; unfold onmessage_resume;
      destruct (pending (playback s) !! k) as [[|]|]; try done;
      by destruct decoded.
  - apply (armed_ext deadline i s); [| |done]; unfold ended_fires; by case_decide.
  - apply (armed_ext deadline i s); [| |done]; unfold interval_fires, frame_callback;
      destruct (timers (browser s) !! id) as [[|]|]; try done;
      destruct (negb (canvas_set e) || negb (video_set e)); try done;
      by destruct (negb (ctx2d e)).
  - apply (armed_ext deadline i s); [| |done]; unfold toBlob_done;
      destruct (toBlob_pending (capture s)); try done; by destruct blob.
  - apply armed_clock; [|done]. by apply bool_decide_eq_true in He.
  - by apply (armed_ext deadline i s).
Qed.

Lemma armed_run deadline i tr s :
  Forall (λ e, quiet_before deadline e = true) tr →
  armed deadline i s → armed deadline i (run tr s).
Proof.
  revert s. induction tr as [|e tr IH]; intros s Htr Hs; [done|].
  inversion Htr; subst. simpl. apply IH; [done|]. by apply armed_step.
Qed.

Lemma armed_expires deadline i s :
  armed deadline i s →
  currentInstruction (instr (clock_reaches deadline s)) = None.
Proof.
  intros (_ & (id & _ & Hid) & Hnow & _). unfold clock_reaches. cbv zeta.
  rewrite bool_decide_eq_false_2; [done|].
  intros Hempty.
  assert (filter (λ kv, is_due (Z.max (now (browser s)) deadline) kv.2 = true)
            (timers (browser s)) !! id = Some (TTimeout deadline)) as Hin.
  { apply map_lookup_filter_Some_2; [done|]. simpl. apply Z.leb_le. lia. }
  by rewrite Hempty, lookup_empty in Hin.
Qed.

End Expiry.

(** C5, as the specification states it, fails: the channel closes one second
    after an instruction was set; [stopSession] clears the pending time-out
    and leaves the instruction in place, so the instruction, though never
    replaced, is still current when its 8 seconds are over. *)
Lemma expiry_cancelled_by_stop :
  (let i := {| action := JString "fix_buzz"; message := JString "check the cables" |} in
   let s := run [EvClock 1000; EvClose] (handleInstruction i example_connected) in
   now (browser example_connected) = 0
   ∧ Forall (λ e, not_replaced_before 8000 e = true) [EvClock 1000; EvClose]
   ∧ currentInstruction (instr (clock_reaches 8000 s)) = Some i
   ∧ timers (browser s) = ∅)
  ∧ ¬ expires_unless_replaced.
Proof.
  split.
  - cbv zeta. split; [reflexivity|]. split; [by repeat constructor|].
    split; vm_compute; reflexivity.
  - intros Hexp.
    specialize (Hexp example_connected
                  {| action := JString "fix_buzz"; message := JString "check the cables" |}
                  [EvClock 1000; EvClose]).
    assert (reachable example_connected) as Hreach by (eexists; reflexivity).
    specialize (Hexp Hreach ltac:(by repeat constructor)).
    vm_compute in Hexp. discriminate Hexp.
Qed.

(** C5, amended.  In every state the component can reach at most one expiry
    time-out is pending.  [handleInstruction] makes its argument the current
    instruction, removes the time-out of the previous instruction from the
    timer table and arms a new one, due 8000 ms later.  If, until then, no
    instruction is set and the session is not stopped, the instruction stays
    current throughout and is cleared when the 8000 ms are over. *)
Theorem instruction_replacement_and_expiry :
  (∀ s id1 id2 due1 due2, reachable s →
     timers (browser s) !! id1 = Some (TTimeout due1) →
     timers (browser s) !! id2 = Some (TTimeout due2) → id1 = id2)
  ∧ (∀ s i, reachable s →
       currentInstruction (instr (handleInstruction i s)) = Some i
       ∧ (∀ old, instructionTimeoutRef (instr s) = Some old →
            timers (browser (handleInstruction i s)) !! old = None)
       ∧ (∃ id, instructionTimeoutRef (instr (handleInstruction i s)) = Some id
                ∧ timers (browser (handleInstruction i s)) !! id =
                  Some (TTimeout (now (browser s) + 8000))))
  ∧ (∀ s i tr, reachable s →
       Forall (λ e, quiet_before (now (browser s) + 8000) e = true) tr →
       currentInstruction (instr (run tr (handleInstruction i s))) = Some i
       ∧ currentInstruction
           (instr (clock_reaches (now (browser s) + 8000)
                     (run tr (handleInstruction i s)))) = None).
Proof.
  split; [|split].
  - intros s id1 id2 due1 due2 Hs H1 H2.
    apply timers_inv_reachable in Hs as (Hown & _ & _).
    apply Hown in H1. apply Hown in H2. congruence.
  - intros s i Hs. apply timers_inv_reachable in Hs as Hinv.
    destruct (armed_handleInstruction i s Hinv) as (Hcur & Hid & _ & _).
    split; [done|]. split; [|done].
    intros old Hold. simpl.
    destruct Hinv as (_ & _ & Hfresh). apply Hfresh in Hold as Hlt.
    rewrite clearTimer_nextTimerId, lookup_insert_ne by lia.
    by apply clearTimer_lookup.
  - intros s i tr Hs Htr. apply timers_inv_reachable in Hs as Hinv.
    pose proof (armed_run _ i tr _ Htr (armed_handleInstruction i s Hinv)) as Harmed.
    split; [by destruct Harmed|]. by apply (armed_expires _ i).
Qed.

Lemma instruction_replacement_and_expiry_witness :
  let i1 := {| action := JString "fix_buzz"; message := JString "check the cables" |} in
  let i2 := {| action := JString "success"; message := JString "done" |} in
  (timers (browser (handleInstruction i2 example_speaking)) !! 2%positive = None
   ∧ ∃ id, instructionTimeoutRef (instr (handleInstruction i2 example_speaking)) = Some id
           ∧ timers (browser (handleInstruction i2 example_speaking)) !! id =
             Some (TTimeout (now (browser example_speaking) + 8000)))
  ∧ currentInstruction
      (instr (run [EvClock 3000; EvMessage 264000 (msg_audio "QQ=="); EvClock 7999]
                (handleInstruction i1 example_connected))) = Some i1
  ∧ currentInstruction
      (instr (clock_reaches (now (browser example_connected) + 8000)
                (run [EvClock 3000; EvMessage 264000 (msg_audio "QQ=="); EvClock 7999]
                   (handleInstruction i1 example_connected)))) = None.
Proof.
  intros i1 i2.
  destruct instruction_replacement_and_expiry as (_ & Hset & Hexp).
  assert (reachable example_connected) as Hc by (eexists; reflexivity).
  assert (reachable example_speaking) as Hs by (eexists; reflexivity).
  split.
  - destruct (Hset example_speaking i2 Hs) as (_ & Hold & Hnew).
    split; [apply Hold; reflexivity|exact Hnew].
  - apply (Hexp example_connected i1 _ Hc). by repeat constructor.
Defined.

(** The scenario of the specification: an instruction, and 3 s later a second
    one.  The second is current; nothing expires at 8 s or just before 11 s;
    the instruction is cleared at 11 s. *)
Example scenario_two_instructions :
  let first := msg_tool [display_call "call-1" (display_args "fix_buzz" "check the cables")] in
  let second := msg_tool [display_call "call-2" (display_args "success" "done")] in
  let instruction_at s t := currentInstruction
                  (instr (run [EvMessage 0 first; EvClock 3000; EvMessage 0 second; EvClock t] s)) in
  instruction_at example_connected 3000 = Some {| action := JString "success"; message := JString "done" |}
  ∧ instruction_at example_connected 8000 = Some {| action := JString "success"; message := JString "done" |}
  ∧ instruction_at example_connected 10999 = Some {| action := JString "success"; message := JString "done" |}
  ∧ instruction_at example_connected 11000 = None.
Proof. vm_compute. done. Qed.

(** ** C6 and C7: tool calls *)

(** What [onmessage] does with a message whose first function call names the
    display tool and carries an argument object. *)
Lemma onmessage_display_call currentTime m s call rest args :
  toolCall m = Some (Some (call :: rest)) →
  fc_name call = Some "displayInstruction"%string →
  fc_args call = Some args →
  toolCall_branch m s =
    Ok (send (ToolResponse (fc_id call) (fc_name call) "Instruction displayed to user")
          (handleInstruction {| action := get_prop args "action";
                                message := get_prop args "message" |} s))
  ∧ currentInstruction (instr (onmessage currentTime m s)) =
      Some {| action := get_prop args "action"; message := get_prop args "message" |}
  ∧ outbox (channel (onmessage currentTime m s)) =
      outbox (channel s) ++
      [ToolResponse (fc_id call) (fc_name call) "Instruction displayed to user"]
  ∧ status (channel (onmessage currentTime m s)) = status (channel s).
Proof.
  intros Hcalls Hname Hargs.
  assert (toolCall_branch m s =
    Ok (send (ToolResponse (fc_id call) (fc_name call) "Instruction displayed to user")
          (handleInstruction {| action := get_prop args "action";
                                message := get_prop args "message" |} s))) as Hb.
  { unfold toolCall_branch. rewrite Hcalls, Hargs. by rewrite bool_decide_eq_true_2. }
  split; [exact Hb|].
  destruct (onmessage_instr currentTime m s) as (Hi & _ & Hc).
  rewrite Hi, Hc. unfold after_toolCall. rewrite Hb. done.
Qed.

(** X2.  A call of the display tool without an argument object: the handler
    throws at [args.action], before anything is changed, and the rest of the
    message is not handled. *)
Lemma onmessage_call_without_args currentTime m s call rest :
  toolCall m = Some (Some (call :: rest)) →
  fc_name call = Some "displayInstruction"%string →
  fc_args call = None →
  toolCall_branch m s = ThrowTypeError ∧ onmessage currentTime m s = s.
Proof.
  intros Hcalls Hname Hargs.
  assert (toolCall_branch m s = ThrowTypeError) as Hb.
  { unfold toolCall_branch. rewrite Hcalls, Hargs. by rewrite bool_decide_eq_true_2. }
  split; [exact Hb|]. unfold onmessage. by rewrite Hb.
Qed.

(** C6, as the specification states it, fails: a call of the display tool
    whose arguments hold a message and no action is not dropped; it becomes
    the current instruction with [undefined] for its action, it is
    acknowledged, and the overlay then throws at [action.includes]. *)
Lemma malformed_call_not_dropped :
  (let m := msg_tool [display_call "call-9" {[ "message"%string := JString "turn it down" ]}] in
   let s := onmessage 0 m example_connected in
   currentInstruction (instr example_connected) = None
   ∧ currentInstruction (instr s) =
       Some {| action := JUndefined; message := JString "turn it down" |}
   ∧ outbox (channel s) =
       [ToolResponse (Some "call-9"%string) (Some "displayInstruction"%string)
          "Instruction displayed to user"]
   ∧ InstructionOverlay (currentInstruction (instr s)) = ThrowTypeError)
  ∧ ¬ malformed_call_dropped.
Proof.
  split; [repeat split; reflexivity|].
  intros Hdrop.
  destruct (Hdrop example_connected 0
              (msg_tool [display_call "call-9" {[ "message"%string := JString "turn it down" ]}])
              (display_call "call-9" {[ "message"%string := JString "turn it down" ]})
              [] {[ "message"%string := JString "turn it down" ]}
              eq_refl eq_refl eq_refl ltac:(left; vm_compute; reflexivity)) as [Hcur _].
  vm_compute in Hcur. discriminate Hcur.
Qed.

(** C6, amended.  A call of the display tool that carries an argument object
    is never dropped, whatever the object holds: the handler does not throw,
    the instruction is set from [args.action] and [args.message], a missing
    field being [undefined], the call is acknowledged, and the status of the
    session is unchanged.  When the action is a string the overlay renders
    and shows the message as it is, also when the message is missing. *)
Theorem malformed_call_is_displayed
    (s : State) (currentTime : Z) (m : LiveServerMessage)
    (call : FunctionCall) (rest : list FunctionCall) (args : gmap string jsval) :
  toolCall m = Some (Some (call :: rest)) →
  fc_name call = Some "displayInstruction"%string →
  fc_args call = Some args →
  toolCall_branch m s ≠ ThrowTypeError
  ∧ (∃ i, currentInstruction (instr (onmessage currentTime m s)) = Some i
          ∧ action i = get_prop args "action"
          ∧ message i = get_prop args "message"
          ∧ (args !! "action"%string = None → action i = JUndefined)
          ∧ (args !! "message"%string = None → message i = JUndefined)
          ∧ (∀ a, args !! "action"%string = Some (JString a) →
               ∃ o, InstructionOverlay (Some i) = Ok (Some o)
                    ∧ ov_text o = message i))
  ∧ outbox (channel (onmessage currentTime m s)) =
      outbox (channel s) ++
      [ToolResponse (fc_id call) (fc_name call) "Instruction displayed to user"]
  ∧ status (channel (onmessage currentTime m s)) = status (channel s).
Proof.
  intros Hcalls Hname Hargs.
  destruct (onmessage_display_call currentTime m s call rest args Hcalls Hname Hargs)
    as (Hb & Hcur & Hout & Hst).
  split; [by rewrite Hb|]. split; [|done].
  eexists. split; [exact Hcur|]. simpl.
  split; [done|]. split; [done|].
  split; [by unfold get_prop; intros ->|].
  split; [by unfold get_prop; intros ->|].
  intros a Ha. unfold InstructionOverlay, get_prop at 1. simpl.
  unfold get_prop at 1 2 3. rewrite Ha. simpl.
  unfold getVisualHint, js_includes. simpl.
  destruct (includes "reduce" a); simpl; [eauto|].
  destruct (includes "increase" a); simpl; eauto.
Qed.

Lemma malformed_call_is_displayed_witness :
  let call := display_call "call-9" {[ "action"%string := JString "reduce_gain" ]} in
  let m := msg_tool [call] in
  toolCall_branch m example_connected ≠ ThrowTypeError
  ∧ (∃ i, currentInstruction (instr (onmessage 0 m example_connected)) = Some i
          ∧ action i = JString "reduce_gain"
          ∧ message i = JUndefined
          ∧ ∃ o, InstructionOverlay (Some i) = Ok (Some o) ∧ ov_text o = message i)
  ∧ outbox (channel (onmessage 0 m example_connected)) =
      [ToolResponse (Some "call-9"%string) (Some "displayInstruction"%string)
         "Instruction displayed to user"].
Proof.
  intros call m.
  destruct (malformed_call_is_displayed example_connected 0 m call []
              {[ "action"%string := JString "reduce_gain" ]} eq_refl eq_refl eq_refl)
    as (Hok & (i & Hcur & Hact & Hmsg & _ & Hmissing & Hrender) & Hout & _).
  split; [exact Hok|]. split; [|exact Hout].
  exists i. split; [exact Hcur|]. split; [exact Hact|].
  split; [apply Hmissing; reflexivity|].
  apply (Hrender "reduce_gain"%string). reflexivity.
Defined.

(** C7.  Of the function calls of a message only the first is looked at: the
    message is handled as if the others were not there.  When the first call
    names the display tool and carries an argument object, its action and
    message become the current instruction, and exactly one tool response is
    handed to the session, with the identifier and the name of that call. *)
Theorem first_function_call_only
    (s : State) (currentTime : Z) (call : FunctionCall) (rest : list FunctionCall)
    (audio : option string) (flag : bool) :
  onmessage currentTime
    {| toolCall := Some (Some (call :: rest)); audioData := audio; interrupted := flag |} s =
  onmessage currentTime
    {| toolCall := Some (Some [call]); audioData := audio; interrupted := flag |} s
  ∧ (∀ args,
       fc_name call = Some "displayInstruction"%string →
       fc_args call = Some args →
       let s' := onmessage currentTime
                   {| toolCall := Some (Some (call :: rest));
                      audioData := audio; interrupted := flag |} s in
       currentInstruction (instr s') =
         Some {| action := get_prop args "action"; message := get_prop args "message" |}
       ∧ outbox (channel s') =
           outbox (channel s) ++
           [ToolResponse (fc_id call) (fc_name call) "Instruction displayed to user"]).
Proof.
  split; [done|].
  intros args Hname Hargs s'.
  destruct (onmessage_display_call currentTime
              {| toolCall := Some (Some (call :: rest));
                 audioData := audio; interrupted := flag |} s call rest args
              eq_refl Hname Hargs) as (_ & Hcur & Hout & _).
  done.
Qed.

Lemma first_function_call_only_witness :
  let first := display_call "call-1" (display_args "fix_buzz" "check the cables") in
  let second := display_call "call-2" (display_args "success" "done") in
  let s' := onmessage 0 {| toolCall := Some (Some [first; second]);
                           audioData := None; interrupted := false |} example_connected in
  currentInstruction (instr s') =
    Some {| action := JString "fix_buzz"; message := JString "check the cables" |}
  ∧ outbox (channel s') =
      [ToolResponse (Some "call-1"%string) (Some "displayInstruction"%string)
         "Instruction displayed to user"].
Proof.
  intros first second.
  destruct (first_function_call_only example_connected 0 first [second] None false)
    as [_ Hfirst].
  exact (Hfirst (display_args "fix_buzz" "check the cables") eq_refl eq_refl).
Defined.

(** ** C8: the frame sampler *)

Lemma interval_fires_cases id e s :
  interval_fires id e s = s
  ∨ (frame_available e = true
     ∧ is_Some (timers (browser s) !! id)
     ∧ interval_fires id e s = frame_callback e s
     ∧ toBlob_pending (capture (frame_callback e s)) = S (toBlob_pending (capture s))
     ∧ browser (frame_callback e s) = browser s
     ∧ frameIntervalRef (capture (frame_callback e s)) = frameIntervalRef (capture s)).
Proof.
  unfold interval_fires, frame_callback, frame_available.
  destruct (timers (browser s) !! id) as [[period|due]|]; [|by left|by left].
  destruct (canvas_set e), (video_set e), (ctx2d e); simpl; try (by left).
  right. repeat split. eauto.
Qed.

Lemma interval_fires_armed id e s period :
  timers (browser s) !! id = Some (TInterval period) →
  frame_available e = true →
  toBlob_pending (capture (interval_fires id e s)) = S (toBlob_pending (capture s))
  ∧ browser (interval_fires id e s) = browser s.
Proof.
  unfold interval_fires, frame_callback, frame_available. intros -> He.
  destruct (canvas_set e), (video_set e), (ctx2d e); done.
Qed.

(** C8, as the specification states it, fails: the callback never asks
    whether the video holds a current frame.  With the canvas, the video
    element and the drawing context in place and no frame in the video, the
    tick is not skipped: it starts a compression, and the blob that comes
    back is sent. *)
Lemma tick_without_frame_not_skipped :
  (let e := {| canvas_set := true; video_set := true; ctx2d := true;
               video_has_frame := false |} in
   toBlob_pending (capture (step (EvInterval 1%positive e) example_connected)) = 1%nat
   ∧ outbox (channel (run [EvInterval 1%positive e; EvBlob (Some "/9j/"%string)]
                        example_connected)) =
     [RealtimeImage jpeg_mime "/9j/"])
  ∧ ¬ skips_without_frame.
Proof.
  split; [split; reflexivity|].
  intros Hskip.
  specialize (Hskip example_connected 1%positive
                {| canvas_set := true; video_set := true; ctx2d := true;
                   video_has_frame := false |} eq_refl).
  apply (f_equal (λ s, toBlob_pending (capture s))) in Hskip.
  vm_compute in Hskip. discriminate Hskip.
Qed.

(** C8, amended.  One firing of the frame interval starts at most one
    [toBlob] compression, however many are still in flight, and returns
    without waiting for it: the timer table, and with it the interval, is as
    it was, so the next tick comes all the same.  The tick changes nothing at
    all when the canvas, the video element or the drawing context is
    missing, and this is the only test it makes: what it does is the same
    whether or not the video holds a current frame, and when the three are
    there and the interval is armed it starts its compression, so [n] such
    ticks in a row leave [n] more compressions in flight.  The interval is
    armed with the period 1000/1.5 ms, which lies between 666 and 667 ms. *)
Theorem frame_sampler_one_per_tick (s : State) (id : positive) (e : FrameEnv) :
  (toBlob_pending (capture (interval_fires id e s)) ≤ S (toBlob_pending (capture s)))%nat
  ∧ browser (interval_fires id e s) = browser s
  ∧ frameIntervalRef (capture (interval_fires id e s)) = frameIntervalRef (capture s)
  ∧ (frame_available e = false → interval_fires id e s = s)
  ∧ (∀ e', canvas_set e' = canvas_set e → video_set e' = video_set e →
           ctx2d e' = ctx2d e → interval_fires id e' s = interval_fires id e s)
  ∧ (∀ period,
       timers (browser s) !! id = Some (TInterval period) →
       frame_available e = true →
       toBlob_pending (capture (interval_fires id e s)) = S (toBlob_pending (capture s)))
  ∧ (∀ period envs,
       timers (browser s) !! id = Some (TInterval period) →
       Forall (λ e', frame_available e' = true) envs →
       toBlob_pending (capture (run (map (EvInterval id) envs) s)) =
       (toBlob_pending (capture s) + length envs)%nat)
  ∧ (∃ id', frameIntervalRef (capture (startVideoStreaming s)) = Some id'
            ∧ timers (browser (startVideoStreaming s)) !! id' = Some (TInterval frame_period))
  ∧ (frame_period == 2000 # 3)%Q ∧ (666 < frame_period)%Q ∧ (frame_period < 667)%Q.
Proof.
  split; [|split; [|split; [|split; [|split; [|split; [|split; [|split]]]]]]].
  - destruct (interval_fires_cases id e s) as [->|(_ & _ & -> & -> & _)]; lia.
  - by destruct (interval_fires_cases id e s) as [->|(_ & _ & -> & _ & -> & _)].
  - by destruct (interval_fires_cases id e s) as [->|(_ & _ & -> & _ & _ & ->)].
  - intros He. destruct (interval_fires_cases id e s) as [->|(He' & _)]; [done|].
    congruence.
  - intros e' Hc Hv Hx. unfold interval_fires, frame_callback.
    by rewrite Hc, Hv, Hx.
  - intros period Hid He. by destruct (interval_fires_armed id e s period).
  - intros period envs. revert s.
    induction envs as [|e' envs IH]; intros s Hid Henvs; simpl; [lia|].
    inversion Henvs; subst.
    destruct (interval_fires_armed id e' s period) as [Hp Hb]; [done|done|].
    rewrite IH; [|by rewrite Hb|done]. rewrite Hp. lia.
  - eexists. split; [done|]. simpl. apply lookup_insert_eq.
  - done.
Qed.

Lemma frame_sampler_one_per_tick_witness :
  let slow := {| canvas_set := true; video_set := true; ctx2d := true;
                 video_has_frame := true |} in
  let blank := {| canvas_set := true; video_set := true; ctx2d := true;
                  video_has_frame := false |} in
  let gone := {| canvas_set := true; video_set := false; ctx2d := true;
                 video_has_frame := false |} in
  interval_fires 1%positive gone example_connected = example_connected
  ∧ toBlob_pending (capture (interval_fires 1%positive blank example_connected)) = 1%nat
  ∧ toBlob_pending (capture (run (map (EvInterval 1%positive) [slow; blank; slow])
                               example_connected)) = 3%nat.
Proof.
  intros slow blank gone.
  destruct (frame_sampler_one_per_tick example_connected 1%positive gone)
    as (_ & _ & _ & Hskip & _ & _ & Hticks & _).
  destruct (frame_sampler_one_per_tick example_connected 1%positive blank)
    as (_ & _ & _ & _ & _ & Hone & _).
  split; [apply Hskip; reflexivity|].
  split; [apply (Hone frame_period); reflexivity|].
  apply (Hticks frame_period [slow; blank; slow]); [reflexivity|].
  repeat constructor.
Defined.

(** ** C9: the audio encoder *)

Section Encoder.

Lemma quot_bounds a b k :
  0 < b → - k * b ≤ a → a ≤ k * b → - k ≤ Z.quot a b ≤ k.
Proof.
  intros Hb Hlo Hhi. split.
  - rewrite <- (Z.quot_mul (- k) b) by lia. apply Z.quot_le_mono; lia.
  - rewrite <- (Z.quot_mul k b) by lia. apply Z.quot_le_mono; lia.
Qed.

Lemma Qtruncate_comp x y : (x == y)%Q → Qtruncate x = Qtruncate y.
Proof.
  unfold Qeq, Qtruncate. destruct x as [a b], y as [c d]. simpl. intros H.
  rewrite <- (Z.quot_mul_cancel_r a (Z.pos b) (Z.pos d)) by lia.
  rewrite H.
  rewrite (Z.mul_comm (Z.pos b) (Z.pos d)).
  apply Z.quot_mul_cancel_r; lia.
Qed.

Lemma clamp_sample_range x : (-1 <= clamp_sample x)%Q ∧ (clamp_sample x <= 1)%Q.
Proof.
  unfold clamp_sample.
  destruct (Qle_bool x (-1)) eqn:Hlo; [done|].
  destruct (Qle_bool 1 x) eqn:Hhi; [done|].
  assert (¬ (x <= -1)%Q) as Hlo' by (rewrite <- Qle_bool_iff; congruence).
  assert (¬ (1 <= x)%Q) as Hhi' by (rewrite <- Qle_bool_iff; congruence).
  apply Qnot_le_lt in Hlo'. apply Qnot_le_lt in Hhi'.
  split; by apply Qlt_le_weak.
Qed.

Lemma clamp_sample_inside x : (-1 <= x)%Q → (x <= 1)%Q → (clamp_sample x == x)%Q.
Proof.
  intros Hlo Hhi. unfold clamp_sample.
  destruct (Qle_bool x (-1)) eqn:H1.
  { apply Qle_bool_iff in H1. by apply Qle_antisym. }
  destruct (Qle_bool 1 x) eqn:H2; [|reflexivity].
  apply Qle_bool_iff in H2. by apply Qle_antisym.
Qed.

Lemma float_to_int16_range x : -32767 ≤ float_to_int16 x ≤ 32767.
Proof.
  unfold float_to_int16. destruct (clamp_sample_range x) as [Hlo Hhi].
  destruct (clamp_sample x) as [a b]. unfold Qle in Hlo, Hhi. simpl in Hlo, Hhi.
  unfold Qtruncate. simpl. apply (quot_bounds _ _ 32767); lia.
Qed.

End Encoder.

(** C9.  The chunk holds one 16-bit sample for each sample of the block, so
    4096 for a block of 4096, and one chunk is handed to the session per
    block.  A sample is clamped to [-1,1] and scaled by 32767: inside the
    interval it becomes the integer part of 32767 times itself, at and above
    1 it becomes 32767, at and below -1 it becomes -32767, and it always lies
    between -32767 and 32767.  In particular 0 gives 0, 1 gives 32767, -1
    gives -32767, and a block of 4096 zeros gives a chunk of 4096 zeros. *)
Theorem pcm_encoding :
  (∀ x, -32767 ≤ float_to_int16 x ≤ 32767)
  ∧ (∀ x, (-1 <= x)%Q → (x <= 1)%Q → float_to_int16 x = Qtruncate (x * 32767))
  ∧ (∀ x, (1 <= x)%Q → float_to_int16 x = 32767)
  ∧ (∀ x, (x <= -1)%Q → float_to_int16 x = -32767)
  ∧ float_to_int16 0 = 0
  ∧ float_to_int16 1 = 32767
  ∧ float_to_int16 (-1) = -32767
  ∧ createPcmBlob (replicate bufferSize 0%Q) = RealtimeAudio pcm_mime (replicate bufferSize 0)
  ∧ (∀ inputData, ∃ samples,
       createPcmBlob inputData = RealtimeAudio pcm_mime samples
       ∧ length samples = length inputData)
  ∧ (∀ s inputData,
       outbox (channel (onaudioprocess inputData s)) =
       outbox (channel s) ++ [createPcmBlob inputData]).
Proof.
  split; [apply float_to_int16_range|].
  split.
  { intros x Hlo Hhi. unfold float_to_int16. apply Qtruncate_comp.
    by rewrite clamp_sample_inside. }
  split.
  { intros x Hx. unfold float_to_int16.
    rewrite (Qtruncate_comp _ (1 * 32767)%Q); [done|].
    apply Qmult_comp; [|reflexivity].
    unfold clamp_sample. destruct (Qle_bool x (-1)) eqn:H1.
    - apply Qle_bool_iff in H1. exfalso.
      assert (1 <= -1)%Q as Habs by (eapply Qle_trans; eassumption).
      by compute in Habs.
    - apply Qle_bool_iff in Hx. by rewrite Hx. }
  split.
  { intros x Hx. unfold float_to_int16, clamp_sample.
    apply Qle_bool_iff in Hx. by rewrite Hx. }
  split; [done|]. split; [done|]. split; [done|].
  split.
  { vm_compute. reflexivity. }
  split.
  { intros inputData. eexists. split; [done|]. apply length_map. }
  done.
Qed.

Lemma pcm_encoding_witness :
  float_to_int16 (1 # 2) = Qtruncate ((1 # 2) * 32767)
  ∧ float_to_int16 (3 # 2) = 32767
  ∧ float_to_int16 (- 5 # 4) = -32767
  ∧ outbox (channel (onaudioprocess [0%Q; 1%Q; (-1)%Q] example_connected)) =
      outbox (channel example_connected) ++ [createPcmBlob [0%Q; 1%Q; (-1)%Q]].
Proof.
  destruct pcm_encoding as (_ & Hin & Hhi & Hlo & _ & _ & _ & _ & _ & Hsend).
  split; [apply Hin; by compute|].
  split; [apply Hhi; by compute|].
  split; [apply Hlo; by compute|].
  apply (Hsend example_connected [0%Q; 1%Q; (-1)%Q]).
Defined.

(** ** C4: the terminal transitions *)

Lemma onerror_frame s :
  playback (onerror s) = playback s
  ∧ instr (onerror s) = instr s
  ∧ capture (onerror s) = capture s
  ∧ browser (onerror s) = browser s
  ∧ status (channel (onerror s)) = ERROR.
Proof. done. Qed.

(** C4 does not hold of the code.  From a session that is connected, with two
    live tracks, the frame interval armed and an instruction time-out pending,
    the channel-error callback sets the status to [ERROR] and releases
    nothing: the tracks are live, both timers are in the table, both contexts
    run.  The close callback, from the same state, goes through [stopSession]
    and releases them all.  The [catch] block of the set-up leaves a stream it
    has already obtained live in the same way. *)
Theorem onerror_releases_nothing :
  status (channel (step EvError example_speaking)) = ERROR
  ∧ streamRef (capture (step EvError example_speaking)) = Some [TrackLive; TrackLive]
  ∧ frameIntervalRef (capture (step EvError example_speaking)) = Some 1%positive
  ∧ timers (browser (step EvError example_speaking)) !! 1%positive =
      Some (TInterval frame_period)
  ∧ instructionTimeoutRef (instr (step EvError example_speaking)) = Some 2%positive
  ∧ timers (browser (step EvError example_speaking)) !! 2%positive =
      Some (TTimeout 8000)
  ∧ audioContextRef (capture (step EvError example_speaking)) = Some CtxRunning
  ∧ inputContextRef (capture (step EvError example_speaking)) = Some CtxRunning
  ∧ (status (channel (step EvClose example_speaking)) = DISCONNECTED
     ∧ streamRef (capture (step EvClose example_speaking)) = Some [TrackEnded; TrackEnded]
     ∧ timers (browser (step EvClose example_speaking)) = ∅
     ∧ audioContextRef (capture (step EvClose example_speaking)) = Some CtxClosed
     ∧ inputContextRef (capture (step EvClose example_speaking)) = Some CtxClosed)
  ∧ (status (channel (step (EvConnect (ContextFails 2)) initial)) = ERROR
     ∧ streamRef (capture (step (EvConnect (ContextFails 2)) initial)) =
         Some [TrackLive; TrackLive]).
Proof. repeat split; vm_compute; reflexivity. Qed.

(** X3.  The resources an error transition leaves behind are released when
    the component unmounts: after the channel error and the unmount the
    status is [DISCONNECTED], the stream has as many tracks as before and
    every one of them is ended, and the frame interval and the instruction
    time-out that were held are no longer in the timer table. *)
Lemma unmount_after_error_releases s :
  let s' := step EvUnmount (step EvError s) in
  status (channel s') = DISCONNECTED
  ∧ (∀ tracks, streamRef (capture s) = Some tracks →
       ∃ tracks', streamRef (capture s') = Some tracks'
                  ∧ length tracks' = length tracks
                  ∧ Forall (λ t, t = TrackEnded) tracks')
  ∧ (∀ id, frameIntervalRef (capture s) = Some id → timers (browser s') !! id = None)
  ∧ (∀ id, instructionTimeoutRef (instr s) = Some id → timers (browser s') !! id = None).
Proof.
  split; [done|]. split; [|split].
  - intros tracks Hs. exists (map (λ _, TrackEnded) tracks). simpl. rewrite Hs.
    split; [done|]. split; [apply length_map|].
    apply Forall_forall. intros t Ht. apply list_elem_of_fmap in Ht.
    by destruct Ht as (? & -> & _).
  - intros id Hid. simpl. rewrite clearTimer_comm. by apply clearTimer_lookup.
  - intros id Hid. simpl. by apply clearTimer_lookup.
Qed.

(** * Further properties of the code *)

(** ** Playback: what every callback keeps *)

Section PlaybackOps.

Lemma if_interrupted_ops flag s :
  rtc (playback_op true) s (if_interrupted flag s).
Proof. destruct flag; [by apply rtc_once, op_flush|done]. Qed.

(** Every callback changes the playback cells by elementary changes only. *)
Lemma step_ops e s :
  nonneg_duration e = true → rtc (playback_op true) s (step e s).
Proof.
  intros He. destruct e; simpl.
  - apply rtc_once, op_same. by destruct o.
  - by apply rtc_once, op_same.
  - apply rtc_once, op_same. unfold audioprocess_fires. by repeat case_match.
  - unfold onmessage. destruct (toolCall_branch m s) as [s1|] eqn:Htool; [|done].
    apply toolCall_branch_playback in Htool as [Hp _].
    eapply rtc_l; [by apply (op_same _ s s1)|].
    destruct (audio_present m); [|apply if_interrupted_ops].
    eapply rtc_l; [apply (op_speaking _ s1 true)|].
    destruct (audioContextRef (capture (set_speaking true s1)));
      [apply rtc_once, op_arrive|apply if_interrupted_ops].
  - unfold onmessage_resume.
    destruct (pending (playback s) !! k) as [flag|]; [|done].
    eapply rtc_l; [apply (op_drop _ s k)|].
    destruct decoded as [duration|]; [|done].
    eapply rtc_l; [apply op_schedule; simpl in He; by apply Z.leb_le|].
    apply if_interrupted_ops.
  - unfold ended_fires. case_decide; [by apply rtc_once, op_ended|done].
  - apply rtc_once, op_same. unfold interval_fires, frame_callback.
    destruct (timers (browser s) !! id) as [[|]|]; try done.
    destruct (negb (canvas_set e) || negb (video_set e)); [done|].
    by destruct (negb (ctx2d e)).
  - apply rtc_once, op_same. unfold toBlob_done.
    destruct (toBlob_pending (capture s)); [done|]. by destruct blob.
  - apply rtc_once, op_same. unfold clock_reaches. cbv zeta. by case_bool_decide.
  - apply rtc_once, op_stop.
  - by apply rtc_once, op_same.
  - apply rtc_once, op_stop.
Qed.

(** The same without the interruption branch, for an event that carries no
    interruption while no suspended handler carries one. *)
Lemma step_ops_no_flush e s :
  nonneg_duration e = true → carries_interruption e = false →
  Forall (λ b, b = false) (pending (playback s)) →
  rtc (playback_op false) s (step e s).
Proof.
  intros He Hint Hpend. destruct e; simpl in *.
  - apply rtc_once, op_same. by destruct o.
  - by apply rtc_once, op_same.
  - apply rtc_once, op_same. unfold audioprocess_fires. by repeat case_match.
  - unfold onmessage. destruct (toolCall_branch m s) as [s1|] eqn:Htool; [|done].
    apply toolCall_branch_playback in Htool as [Hp _].
    eapply rtc_l; [by apply (op_same _ s s1)|]. rewrite Hint.
    destruct (audio_present m); [|done].
    eapply rtc_l; [apply (op_speaking _ s1 true)|].
    destruct (audioContextRef (capture (set_speaking true s1)));
      [apply rtc_once, op_arrive|done].
  - unfold onmessage_resume.
    destruct (pending (playback s) !! k) as [flag|] eqn:Hk; [|done].
    assert (flag = false) as ->.
    { rewrite Forall_forall in Hpend. apply Hpend, list_elem_of_lookup. eauto. }
    eapply rtc_l; [apply (op_drop _ s k)|].
    destruct decoded as [duration|]; [|done].
    apply rtc_once, op_schedule. by apply Z.leb_le.
  - unfold ended_fires. case_decide; [by apply rtc_once, op_ended|done].
  - apply rtc_once, op_same. unfold interval_fires, frame_callback.
    destruct (timers (browser s) !! id) as [[|]|]; try done.
    destruct (negb (canvas_set e) || negb (video_set e)); [done|].
    by destruct (negb (ctx2d e)).
  - apply rtc_once, op_same. unfold toBlob_done.
    destruct (toBlob_pending (capture s)); [done|]. by destruct blob.
  - apply rtc_once, op_same. unfold clock_reaches. cbv zeta. by case_bool_decide.
  - apply rtc_once, op_stop.
  - by apply rtc_once, op_same.
  - apply rtc_once, op_stop.
Qed.

(** A property of the playback cells that every elementary change keeps holds
    after every trace. *)
Lemma ops_invariant (P : Playback → Prop) flush :
  (∀ s s', playback_op flush s s' → P (playback s) → P (playback s')) →
  ∀ s s', rtc (playback_op flush) s s' → P (playback s) → P (playback s').
Proof. intros Hop s s' Hrtc. induction Hrtc; eauto. Qed.

Lemma run_invariant (P : Playback → Prop) :
  (∀ s s', playback_op true s s' → P (playback s) → P (playback s')) →
  ∀ tr s, Forall (λ e, nonneg_duration e = true) tr →
          P (playback s) → P (playback (run tr s)).
Proof.
  intros Hop tr. induction tr as [|e tr IH]; intros s Htr Hs; [done|].
  inversion Htr; subst. simpl. apply IH; [done|].
  eapply (ops_invariant P true); [done|by apply step_ops|done].
Qed.

Lemma stop_sources_when srcs ns i n :
  stop_sources srcs ns !! i = Some n →
  ∃ n0, ns !! i = Some n0 ∧ src_when n0 = src_when n ∧ src_duration n0 = src_duration n.
Proof.
  rewrite stop_sources_lookup. destruct (ns !! i) as [n0|]; [|done].
  simpl. intros [= <-]. exists n0. by case_decide.
Qed.

Lemma sources_inv_op s s' :
  playback_op true s s' → sources_inv (playback s) → sources_inv (playback s').
Proof.
  unfold sources_inv. intros Hop Hinv.
  destruct Hop as [s s' Hp| | | |s duration Hd| | |s i0]; simpl.
  - by rewrite Hp.
  - done.
  - done.
  - done.
  - intros i [->%elem_of_singleton|Hi]%elem_of_union.
    + eexists. rewrite lookup_app_r by lia. rewrite Nat.sub_diag. by simpl.
    + destruct (Hinv i Hi) as (n & Hn & Hstop). exists n. split; [|done].
      rewrite lookup_app_l; [done|]. by apply lookup_lt_Some in Hn.
  - intros i Hi. by apply not_elem_of_empty in Hi.
  - intros i Hi. by apply not_elem_of_empty in Hi.
  - intros i Hi. apply Hinv. by apply elem_of_difference in Hi as [Hi _].
Qed.

Lemma offsets_nonneg_op s s' :
  playback_op true s s' → offsets_nonneg (playback s) → offsets_nonneg (playback s').
Proof.
  unfold offsets_nonneg. intros Hop [Hnext Hnodes].
  destruct Hop as [s s' Hp| |s c flag| |s duration Hd| | |]; simpl.
  - by rewrite Hp.
  - done.
  - split; [simpl; lia|done].
  - done.
  - split; simpl; [lia|]. intros i n Hn.
    destruct (decide (i < length (nodes (playback s)))%nat).
    + rewrite lookup_app_l in Hn by lia. eauto.
    + apply lookup_lt_Some in Hn as Hlen. rewrite length_app in Hlen. simpl in Hlen.
      rewrite lookup_app_r in Hn by lia.
      replace (i - length (nodes (playback s)))%nat with 0%nat in Hn by lia.
      simpl in Hn. by inversion Hn; subst n.
  - split; [done|]. simpl. intros i n Hn.
    apply stop_sources_when in Hn as (n0 & Hn0 & <- & _). eauto.
  - split; [done|]. simpl. intros i n Hn.
    apply stop_sources_when in Hn as (n0 & Hn0 & <- & _). eauto.
  - done.
Qed.

Lemma offset_monotone_op s s' :
  playback_op false s s' →
  nextStartTimeRef (playback s) ≤ nextStartTimeRef (playback s').
Proof.
  intros Hop. destruct Hop as [s s' Hp| |s c flag| |s duration Hd|s Hf| |]; simpl;
    try discriminate; try lia.
  by rewrite Hp.
Qed.

End PlaybackOps.

(** X4.  In every state the component reaches, each source of the active set
    exists and has not been stopped: [source.stop()] of the interruption
    branch and of [stopSession] meets only sources that were started and not
    yet stopped. *)
Theorem active_sources_unstopped (tr : list Event) (i : nat) :
  Forall (λ e, nonneg_duration e = true) tr →
  i ∈ sourcesRef (playback (run tr initial)) →
  ∃ n, nodes (playback (run tr initial)) !! i = Some n ∧ src_stopped n = false.
Proof.
  intros Htr Hi.
  apply (run_invariant sources_inv sources_inv_op tr initial Htr); [|done].
  intros j Hj. by apply not_elem_of_empty in Hj.
Qed.

Lemma active_sources_unstopped_witness :
  ∃ n, nodes (playback example_speaking) !! 0%nat = Some n ∧ src_stopped n = false.
Proof.
  apply (active_sources_unstopped
           [EvConnect (SetupDone 2); EvOpen;
            EvMessage 0 (msg_tool [display_call "call-1"
                                     (display_args "fix_buzz" "check the cables")]);
            EvMessage 240000 (msg_audio "UklGRg==");
            EvDecoded 0 (Some 24000)] 0%nat).
  - repeat constructor.
  - apply (bool_decide_unpack _). vm_compute. exact I.
Defined.

(** X5.  The playback offset and the offset every source is started at are
    never negative, whatever the events, interruptions and stops included:
    [source.start] is never given a negative time. *)
Theorem start_offsets_never_negative (tr : list Event) :
  Forall (λ e, nonneg_duration e = true) tr →
  0 ≤ nextStartTimeRef (playback (run tr initial))
  ∧ ∀ i n, nodes (playback (run tr initial)) !! i = Some n → 0 ≤ src_when n.
Proof.
  intros Htr.
  apply (run_invariant offsets_nonneg offsets_nonneg_op tr initial Htr).
  split; [done|]. intros i n H. simpl in H. by rewrite lookup_nil in H.
Qed.

Lemma start_offsets_never_negative_witness :
  0 ≤ nextStartTimeRef
        (playback (run [EvConnect (SetupDone 2); EvOpen;
                        EvMessage 1200 (msg_audio "QQ=="); EvDecoded 0 (Some 24000);
                        EvMessage 30000 msg_interrupted] initial)).
Proof.
  apply (start_offsets_never_negative
           [EvConnect (SetupDone 2); EvOpen;
            EvMessage 1200 (msg_audio "QQ=="); EvDecoded 0 (Some 24000);
            EvMessage 30000 msg_interrupted]).
  repeat constructor.
Defined.

(** X6.  As long as no interruption arrives the playback offset never moves
    back: after any further events it is at least what it was. *)
Theorem offset_never_moves_back (before after : list Event) :
  Forall (λ e, nonneg_duration e = true) (before ++ after) →
  Forall (λ e, carries_interruption e = false) (before ++ after) →
  nextStartTimeRef (playback (run before initial))
  ≤ nextStartTimeRef (playback (run (before ++ after) initial)).
Proof.
  intros [_ Hnn]%Forall_app [Hib Hia]%Forall_app.
  unfold run at 2. rewrite foldl_app. fold (run before initial).
  fold (run after (run before initial)).
  pose proof (playback_inv_run before initial Hib playback_inv_initial) as Hinv.
  revert Hinv Hnn Hia. generalize (run before initial).
  induction after as [|e after IH]; intros s Hinv Hnn Hia; [done|].
  inversion Hnn; subst. inversion Hia; subst. simpl.
  etrans; [|apply IH; [by apply playback_inv_step|done|done]].
  assert (rtc (playback_op false) s (step e s)) as Hops.
  { apply step_ops_no_flush; [done|done|by destruct Hinv as (_ & _ & ?)]. }
  clear -Hops. induction Hops as [|x y z Hxy _ IHops]; [done|].
  etrans; [by apply offset_monotone_op|done].
Qed.

Lemma offset_never_moves_back_witness :
  nextStartTimeRef (playback (run [EvConnect (SetupDone 2); EvOpen;
                                  EvMessage 240000 (msg_audio "QQ==")] initial))
  ≤ nextStartTimeRef
      (playback (run ([EvConnect (SetupDone 2); EvOpen;
                       EvMessage 240000 (msg_audio "QQ==")] ++
                      [EvMessage 100 (msg_audio "Qg=="); EvDecoded 0 (Some 24000);
                       EvEnded 0; EvClose]) initial)).
Proof.
  apply offset_never_moves_back; repeat constructor.
Defined.

Lemma active_segments_never_overlap_witness :
  src_end {| src_when := 0; src_duration := 24000; src_stopped := false |}
  ≤ src_when {| src_when := 24000; src_duration := 12000; src_stopped := false |}.
Proof.
  apply (active_segments_never_overlap
           [EvConnect (SetupDone 2); EvOpen;
            EvMessage 0 (msg_audio "QQ=="); EvDecoded 0 (Some 24000);
            EvMessage 4800 (msg_audio "Qg=="); EvDecoded 0 (Some 12000)]
           0%nat 1%nat).
  - repeat constructor.
  - apply (bool_decide_unpack _). vm_compute. exact I.
  - apply (bool_decide_unpack _). vm_compute. exact I.
  - lia.
  - reflexivity.
  - reflexivity.
Defined.

(** ** Playback: the end of segments and failed decodes *)

Lemma ended_run_frame l s :
  nodes (playback (run (map EvEnded l) s)) = nodes (playback s)
  ∧ nextStartTimeRef (playback (run (map EvEnded l) s)) = nextStartTimeRef (playback s)
  ∧ pending (playback (run (map EvEnded l) s)) = pending (playback s).
Proof.
  revert s. induction l as [|i l IH]; intros s; [done|]. simpl.
  destruct (IH (ended_fires i s)) as (-> & -> & ->).
  unfold ended_fires. by case_decide.
Qed.

(** X7.  Once the ['ended'] event of every source of the active set has been
    delivered, in whatever order and possibly together with events of sources
    that ended before, the active set is empty and [isAiSpeaking] is false;
    the nodes, the playback offset and the suspended handlers are as they
    were. *)
Theorem all_sources_ended (s : State) (l : list nat) :
  l ≠ [] →
  Forall (λ i, (i < length (nodes (playback s)))%nat) l →
  (∀ i, i ∈ sourcesRef (playback s) → i ∈ l) →
  sourcesRef (playback (run (map EvEnded l) s)) = ∅
  ∧ isAiSpeaking (playback (run (map EvEnded l) s)) = false
  ∧ nodes (playback (run (map EvEnded l) s)) = nodes (playback s)
  ∧ nextStartTimeRef (playback (run (map EvEnded l) s)) = nextStartTimeRef (playback s).
Proof.
  intros Hne Hvalid Hcover.
  destruct (ended_run_frame l s) as (Hnodes & Hnext & _).
  cut (sourcesRef (playback (run (map EvEnded l) s)) = ∅
       ∧ isAiSpeaking (playback (run (map EvEnded l) s)) = false); [tauto|].
  clear Hnodes Hnext. revert s Hne Hvalid Hcover.
  induction l as [|i l IH]; intros s Hne Hvalid Hcover; [done|].
  inversion Hvalid as [|? ? Hi Hl]; subst.
  assert (ended_fires i s = on_ended i s) as Hfires
    by (unfold ended_fires; by rewrite decide_True).
  assert (∀ k, k ∈ sourcesRef (playback (on_ended i s)) → k ∈ l) as Hcover1.
  { simpl. intros k [Hk Hki]%elem_of_difference. apply Hcover in Hk.
    apply elem_of_cons in Hk as [->|Hk]; [|done].
    exfalso. apply Hki. by apply elem_of_singleton. }
  simpl. rewrite Hfires. destruct l as [|j l].
  - assert (sourcesRef (playback s) ∖ {[i]} = ∅) as Hempty.
    { apply set_eq. intros k. split; [|by intros ?%not_elem_of_empty].
      intros Hk. apply Hcover1 in Hk. by apply not_elem_of_nil in Hk. }
    simpl. rewrite Hempty. done.
  - by apply IH.
Qed.

Lemma all_sources_ended_witness :
  sourcesRef (playback (run (map EvEnded [0%nat]) example_speaking)) = ∅
  ∧ isAiSpeaking (playback (run (map EvEnded [0%nat]) example_speaking)) = false.
Proof.
  destruct (all_sources_ended example_speaking [0%nat]) as (Hset & Hflag & _).
  - discriminate.
  - repeat constructor.
  - intros i Hi. change (i ∈ ({[0%nat]} ∪ ∅ : gset nat)) in Hi.
    apply elem_of_union in Hi as [Hi|Hi]; [|by apply not_elem_of_empty in Hi].
    apply elem_of_singleton in Hi as ->. apply list_elem_of_singleton. reflexivity.
  - by split.
Defined.

(** What [onmessage] does up to its suspension with a message that carries
    audio and, possibly, the interruption flag. *)
Lemma onmessage_audio_flagged c data flag s :
  is_Some (audioContextRef (capture s)) → data ≠ ""%string →
  onmessage c {| toolCall := None; audioData := Some data; interrupted := flag |} s =
  audio_arrive c flag (set_speaking true s).
Proof.
  intros Hctx Hdata. rewrite onmessage_audio; [done|done| |done].
  by apply bool_decide_eq_true_2.
Qed.

(** X8.  A message carries audio together with the interruption flag and its
    decode fails: the rest of the handler is skipped, so the interruption is
    lost.  No source is stopped, the active set and the nodes are as before,
    the offset stays raised to the clock read on arrival, [isAiSpeaking] is
    left true, and the session itself (status, timers, capture, instruction)
    is untouched. *)
Theorem failed_decode_loses_interruption
    (s : State) (c : Z) (data : string) :
  is_Some (audioContextRef (capture s)) → data ≠ ""%string →
  let m := {| toolCall := None; audioData := Some data; interrupted := true |} in
  let s' := run [EvMessage c m; EvDecoded (length (pending (playback s))) None] s in
  playback s' =
    {| nextStartTimeRef := Z.max (nextStartTimeRef (playback s)) c;
       nodes := nodes (playback s);
       sourcesRef := sourcesRef (playback s);
       isAiSpeaking := true;
       pending := pending (playback s) |}
  ∧ instr s' = instr s ∧ capture s' = capture s
  ∧ browser s' = browser s ∧ channel s' = channel s.
Proof.
  intros Hctx Hdata m s'. unfold s', m. simpl.
  rewrite onmessage_audio_flagged by done.
  unfold onmessage_resume. simpl.
  rewrite lookup_app_r by lia. rewrite Nat.sub_diag. simpl.
  split; [|done]. f_equal. by rewrite delete_middle, app_nil_r.
Qed.

Lemma failed_decode_loses_interruption_witness :
  let m := {| toolCall := None; audioData := Some "UklGRg=="%string; interrupted := true |} in
  let s' := run [EvMessage 250000 m;
                 EvDecoded (length (pending (playback example_speaking))) None]
              example_speaking in
  playback s' =
    {| nextStartTimeRef := Z.max (nextStartTimeRef (playback example_speaking)) 250000;
       nodes := nodes (playback example_speaking);
       sourcesRef := sourcesRef (playback example_speaking);
       isAiSpeaking := true;
       pending := pending (playback example_speaking) |}.
Proof.
  intros m s'.
  destruct (failed_decode_loses_interruption example_speaking 250000 "UklGRg=="%string)
    as [Hp _]; [eexists; reflexivity|discriminate|exact Hp].
Defined.

(** X9.  A message carries audio together with the interruption flag and its
    decode succeeds: the segment is started and, in the same handler run,
    stopped by the interruption of its own message.  Afterwards the active
    set is empty, every source including the new one is stopped, the offset
    is 0 and [isAiSpeaking] is false. *)
Theorem interrupting_audio_is_flushed
    (s : State) (c duration : Z) (data : string) :
  is_Some (audioContextRef (capture s)) → data ≠ ""%string →
  let m := {| toolCall := None; audioData := Some data; interrupted := true |} in
  let s' := run [EvMessage c m;
                 EvDecoded (length (pending (playback s))) (Some duration)] s in
  sourcesRef (playback s') = ∅
  ∧ nextStartTimeRef (playback s') = 0
  ∧ isAiSpeaking (playback s') = false
  ∧ pending (playback s') = pending (playback s)
  ∧ nodes (playback s') !! length (nodes (playback s)) =
      Some {| src_when := Z.max (nextStartTimeRef (playback s)) c;
              src_duration := duration; src_stopped := true |}
  ∧ (∀ i n, i ∈ sourcesRef (playback s) → nodes (playback s) !! i = Some n →
       nodes (playback s') !! i = Some (stop_node n)).
Proof.
  intros Hctx Hdata m s'. unfold s', m. simpl.
  rewrite onmessage_audio_flagged by done.
  unfold onmessage_resume. simpl.
  rewrite lookup_app_r by lia. rewrite Nat.sub_diag. simpl.
  split; [done|]. split; [done|]. split; [done|].
  split; [by rewrite delete_middle, app_nil_r|]. split.
  - rewrite stop_sources_lookup, lookup_app_r by lia. rewrite Nat.sub_diag. simpl.
    rewrite decide_True; [done|]. apply elem_of_union_l. by apply elem_of_singleton.
  - intros i n Hi Hn. apply stop_sources_in; [by apply elem_of_union_r|].
    rewrite lookup_app_l; [done|]. by apply lookup_lt_Some in Hn.
Qed.

Lemma interrupting_audio_is_flushed_witness :
  let m := {| toolCall := None; audioData := Some "UklGRg=="%string; interrupted := true |} in
  let s' := run [EvMessage 250000 m;
                 EvDecoded (length (pending (playback example_speaking))) (Some 12000)]
              example_speaking in
  sourcesRef (playback s') = ∅
  ∧ nodes (playback s') !! 1%nat =
      Some {| src_when := 264000; src_duration := 12000; src_stopped := true |}
  ∧ nodes (playback s') !! 0%nat =
      Some {| src_when := 240000; src_duration := 24000; src_stopped := true |}.
Proof.
  intros m s'.
  destruct (interrupting_audio_is_flushed example_speaking 250000 12000 "UklGRg=="%string)
    as (Hset & _ & _ & _ & Hnew & Hold); [eexists; reflexivity|discriminate|].
  split; [exact Hset|]. split; [exact Hnew|].
  apply (Hold 0%nat {| src_when := 240000; src_duration := 24000; src_stopped := false |}).
  - apply (bool_decide_unpack _). vm_compute. exact I.
  - reflexivity.
Defined.

(** ** Tool calls that are not honoured *)

(** X10.  When the message has no function calls, or its first function call
    does not name the display tool, the tool calls of the message are ignored
    altogether, even if a later call names the display tool: the message is
    handled as if it had no tool call, no instruction is set and nothing is
    sent to the session. *)
Theorem other_tool_calls_ignored (s : State) (c : Z) (m : LiveServerMessage) :
  match toolCall m with
  | Some (Some (call :: _)) => fc_name call ≠ Some "displayInstruction"%string
  | _ => True
  end →
  onmessage c m s =
    onmessage c {| toolCall := None; audioData := audioData m;
                   interrupted := interrupted m |} s
  ∧ instr (onmessage c m s) = instr s
  ∧ browser (onmessage c m s) = browser s
  ∧ outbox (channel (onmessage c m s)) = outbox (channel s).
Proof.
  intros Hm.
  assert (toolCall_branch m s = Ok s) as Hb.
  { unfold toolCall_branch. destruct (toolCall m) as [[[|call rest]|]|]; try done.
    by rewrite bool_decide_eq_false_2. }
  split.
  - unfold onmessage. rewrite Hb. done.
  - destruct (onmessage_instr c m s) as (Hi & Hbr & Hc).
    unfold after_toolCall in *. rewrite Hb in *. by rewrite Hi, Hbr, Hc.
Qed.

Lemma other_tool_calls_ignored_witness :
  let other := {| fc_id := Some "call-7"%string; fc_name := Some "getWeather"%string;
                  fc_args := Some ∅ |} in
  let m := msg_tool [other; display_call "call-8" (display_args "success" "done")] in
  instr (onmessage 0 m example_connected) = instr example_connected
  ∧ outbox (channel (onmessage 0 m example_connected)) = outbox (channel example_connected).
Proof.
  intros other m.
  destruct (other_tool_calls_ignored example_connected 0 m) as (_ & Hi & _ & Ho).
  - simpl. discriminate.
  - by split.
Defined.

Lemma onmessage_call_without_args_witness :
  let call := {| fc_id := Some "call-3"%string;
                 fc_name := Some "displayInstruction"%string; fc_args := None |} in
  let m := {| toolCall := Some (Some [call]); audioData := Some "UklGRg=="%string;
              interrupted := true |} in
  onmessage 250000 m example_speaking = example_speaking.
Proof.
  intros call m.
  destruct (onmessage_call_without_args 250000 m example_speaking call []) as [_ H];
    [reflexivity|reflexivity|reflexivity|exact H].
Defined.

(** ** Timers: nothing armed survives the stop *)

Section TimerOwnership.

Lemma onmessage_capture c m s : capture (onmessage c m s) = capture s.
Proof.
  unfold onmessage. destruct (toolCall_branch m s) as [s1|] eqn:Htool; [|done].
  apply toolCall_branch_playback in Htool as [_ Hc].
  destruct (audio_present m); simpl.
  - rewrite Hc. destruct (audioContextRef (capture s)); [by simpl|].
    by destruct (interrupted m).
  - by destruct (interrupted m).
Qed.

(** An event other than the opening of the channel leaves [frameIntervalRef]
    alone, and either only removes timers, or changes the instruction cells
    and the timers as [handleInstruction] does. *)
Lemma timer_step_cases e s :
  not_open e = true →
  frameIntervalRef (capture (step e s)) = frameIntervalRef (capture s)
  ∧ ((instructionTimeoutRef (instr (step e s)) = instructionTimeoutRef (instr s)
      ∧ timers (browser (step e s)) ⊆ timers (browser s))
     ∨ ∃ i, instr (step e s) = instr (handleInstruction i s)
            ∧ browser (step e s) = browser (handleInstruction i s)).
Proof.
  intros He. destruct e; try discriminate He; simpl.
  - split; [by destruct o|]. left. by destruct o.
  - unfold audioprocess_fires. split; [by repeat case_match|].
    left. by repeat case_match.
  - split; [by rewrite onmessage_capture|].
    destruct (onmessage_instr currentTime m s) as (Hi & Hb & _).
    destruct (sets_instruction m) eqn:Hm.
    + right. destruct (toolCall_branch_sets m s Hm) as (call & rest & args & _ & _ & _ & Hbr).
      unfold after_toolCall in Hi, Hb. rewrite Hbr in Hi, Hb.
      eexists. split; [exact Hi|exact Hb].
    + left. rewrite (after_toolCall_quiet m s Hm) in Hi, Hb. by rewrite Hi, Hb.
  - unfold onmessage_resume.
    destruct (pending (playback s) !! k) as [[|]|]; [| |by split; [|left]];
      (destruct decoded; by split; [|left]).
  - unfold ended_fires. case_decide; by split; [|left].
  - unfold interval_fires, frame_callback.
    destruct (timers (browser s) !! id) as [[|]|]; try (by split; [|left]).
    destruct (negb (canvas_set e) || negb (video_set e)); [by split; [|left]|].
    destruct (negb (ctx2d e)); by split; [|left].
  - unfold toBlob_done. destruct (toBlob_pending (capture s)); [by split; [|left]|].
    destruct blob; by split; [|left].
  - split; [unfold clock_reaches; cbv zeta; by case_bool_decide|]. left.
    split; [apply clock_reaches_ref|].
    rewrite clock_reaches_browser. apply map_filter_subseteq.
  - split; [done|]. left. split; [done|]. simpl. etrans; apply clearTimer_subseteq.
  - split; [done|]. by left.
  - split; [done|]. left. split; [done|]. simpl. etrans; apply clearTimer_subseteq.
Qed.

Lemma timers_owned_handleInstruction i s s' :
  instr s' = instr (handleInstruction i s) →
  browser s' = browser (handleInstruction i s) →
  frameIntervalRef (capture s') = frameIntervalRef (capture s) →
  timers_owned s → timers_owned s'.
Proof.
  unfold timers_owned. intros -> -> -> Hown id tm. simpl.
  rewrite clearTimer_nextTimerId, lookup_insert_Some.
  intros [[<- <-]|[Hne Hid]]; [done|].
  assert (timers (browser s) !! id = Some tm) as Hold
    by (eapply lookup_weaken; [exact Hid|apply clearTimer_subseteq]).
  specialize (Hown id tm Hold). destruct tm as [period|due]; [done|].
  by rewrite (clearTimer_lookup _ _ _ Hown) in Hid.
Qed.

Lemma timers_owned_step e s :
  not_open e = true → timers_owned s → timers_owned (step e s).
Proof.
  intros He Hown.
  destruct (timer_step_cases e s He) as [Hf [[Hr Hsub]|(i & Hi & Hb)]].
  - intros id tm Hid. rewrite Hf, Hr. apply Hown. by eapply lookup_weaken.
  - by apply (timers_owned_handleInstruction i s).
Qed.

Lemma no_interval_step e s :
  not_open e = true → no_interval s → no_interval (step e s).
Proof.
  intros He Hno.
  destruct (timer_step_cases e s He) as [_ [[_ Hsub]|(i & _ & Hb)]].
  - intros id period Hid. apply (Hno id period). by eapply lookup_weaken.
  - intros id period. rewrite Hb. simpl.
    rewrite clearTimer_nextTimerId, lookup_insert_Some.
    intros [[_ [=]]|[_ Hid]]. apply (Hno id period).
    eapply lookup_weaken; [exact Hid|apply clearTimer_subseteq].
Qed.

Lemma timers_owned_onopen s :
  timers_owned s → no_interval s → timers_owned (onopen s).
Proof.
  intros Hown Hno id tm. simpl. rewrite lookup_insert_Some.
  intros [[<- <-]|[Hne Hid]]; [done|].
  specialize (Hown id tm Hid). destruct tm as [period|due]; [|done].
  by destruct (Hno id period).
Qed.

Lemma timers_owned_run_closed tr s :
  forallb not_open tr = true → timers_owned s → timers_owned (run tr s).
Proof.
  revert s. induction tr as [|e tr IH]; intros s Htr Hs; [done|].
  simpl in Htr. apply andb_prop in Htr as [He Htr]. simpl.
  by apply IH, timers_owned_step.
Qed.

Lemma opens_at_most_once_cons e tr :
  not_open e = true → opens_at_most_once (e :: tr) = opens_at_most_once tr.
Proof. by destruct e. Qed.

Lemma timers_owned_run tr s :
  opens_at_most_once tr = true →
  timers_owned s → no_interval s → timers_owned (run tr s).
Proof.
  revert s. induction tr as [|e tr IH]; intros s Htr Hs Hno; [done|].
  destruct (not_open e) eqn:He.
  - rewrite opens_at_most_once_cons in Htr by done. simpl.
    apply IH; [done|by apply timers_owned_step|by apply no_interval_step].
  - destruct e; try discriminate He. simpl in Htr. simpl.
    apply timers_owned_run_closed; [done|]. by apply timers_owned_onopen.
Qed.

Lemma stopSession_clears_owned s :
  timers_owned s → timers (browser (stopSession s)) = ∅.
Proof.
  intros Hown. apply map_empty. intros id. simpl.
  destruct (timers (browser s) !! id) as [tm|] eqn:Hid.
  - specialize (Hown id tm Hid). destruct tm as [period|due].
    + rewrite clearTimer_comm. by apply clearTimer_lookup.
    + by apply clearTimer_lookup.
  - apply eq_None_not_Some. intros [tm Htm].
    assert (timers (browser s) !! id = Some tm) as Hold.
    { eapply lookup_weaken; [exact Htm|]. etrans; apply clearTimer_subseteq. }
    congruence.
Qed.

End TimerOwnership.

(** X11.  When the channel has opened at most once, [stopSession] leaves no
    timer behind, whatever else happened: the timer table is empty.  So no
    later firing of an interval does anything, and no expiry runs any more:
    the instruction that is current at the stop stays current. *)
Theorem stop_leaves_no_timer (tr : list Event) :
  opens_at_most_once tr = true →
  timers (browser (stopSession (run tr initial))) = ∅
  ∧ (∀ id e, interval_fires id e (stopSession (run tr initial)) =
             stopSession (run tr initial))
  ∧ (∀ t, currentInstruction (instr (clock_reaches t (stopSession (run tr initial)))) =
          currentInstruction (instr (run tr initial))).
Proof.
  intros Htr.
  assert (timers (browser (stopSession (run tr initial))) = ∅) as Hempty.
  { apply stopSession_clears_owned, timers_owned_run; [done| |].
    - intros id tm H. simpl in H. by rewrite lookup_empty in H.
    - intros id period H. simpl in H. by rewrite lookup_empty in H. }
  split; [done|]. split.
  - intros id e. unfold interval_fires. by rewrite Hempty, lookup_empty.
  - intros t. unfold clock_reaches. cbv zeta. rewrite Hempty.
    rewrite map_filter_empty. by rewrite bool_decide_eq_true_2.
Qed.

Lemma stop_leaves_no_timer_witness :
  timers (browser (stopSession example_speaking)) = ∅
  ∧ currentInstruction (instr (clock_reaches 8000 (stopSession example_speaking))) =
    currentInstruction (instr example_speaking).
Proof.
  destruct (stop_leaves_no_timer
              [EvConnect (SetupDone 2); EvOpen;
               EvMessage 0 (msg_tool [display_call "call-1"
                                        (display_args "fix_buzz" "check the cables")]);
               EvMessage 240000 (msg_audio "UklGRg==");
               EvDecoded 0 (Some 24000)]) as (Hempty & _ & Hclock); [reflexivity|].
  split; [exact Hempty|exact (Hclock 8000)].
Defined.

(** ** The frame sampler: frames sent against ticks *)

Section FrameCount.

Lemma frames_sent_snoc out o :
  frames_sent (out ++ [o]) =
  (frames_sent out + match o with RealtimeImage _ _ => 1 | _ => 0 end)%nat.
Proof.
  induction out as [|o' out IH]; simpl; [by destruct o|].
  destruct o'; rewrite IH; lia.
Qed.

Lemma frames_step e s :
  (frames_sent (outbox (channel (step e s))) + toBlob_pending (capture (step e s))
   ≤ frames_sent (outbox (channel s)) + toBlob_pending (capture s)
     + ticks_with_frame [e])%nat.
Proof.
  destruct e; simpl.
  - destruct o; simpl; lia.
  - lia.
  - unfold audioprocess_fires. repeat case_match; simpl; try lia.
    rewrite frames_sent_snoc. simpl. lia.
  - rewrite onmessage_capture.
    destruct (onmessage_instr currentTime m s) as (_ & _ & ->).
    destruct (sets_instruction m) eqn:Hm.
    + destruct (toolCall_branch_sets m s Hm) as (call & rest & args & _ & _ & _ & Hbr).
      unfold after_toolCall. rewrite Hbr. simpl. rewrite frames_sent_snoc. simpl. lia.
    + rewrite (after_toolCall_quiet m s Hm). lia.
  - unfold onmessage_resume.
    destruct (pending (playback s) !! k) as [[|]|]; [| |lia];
      (destruct decoded; simpl; lia).
  - unfold ended_fires. case_decide; simpl; lia.
  - destruct (interval_fires_cases id e s) as [->|(He & _ & -> & Hp & _)].
    + destruct (frame_available e); lia.
    + rewrite Hp, He. unfold frame_callback.
      destruct (negb (canvas_set e) || negb (video_set e)); [lia|].
      destruct (negb (ctx2d e)); simpl; lia.
  - unfold toBlob_done. destruct (toBlob_pending (capture s)) as [|n] eqn:Hp;
      [rewrite Hp; lia|].
    destruct blob; simpl; [|lia]. rewrite frames_sent_snoc. simpl. lia.
  - unfold clock_reaches. cbv zeta. case_bool_decide; simpl; lia.
  - lia.
  - lia.
  - lia.
Qed.

Lemma ticks_with_frame_cons e tr :
  ticks_with_frame (e :: tr) = (ticks_with_frame [e] + ticks_with_frame tr)%nat.
Proof. destruct e; simpl; try done. by destruct (frame_available e). Qed.

Lemma frames_run tr s :
  (frames_sent (outbox (channel (run tr s))) + toBlob_pending (capture (run tr s))
   ≤ frames_sent (outbox (channel s)) + toBlob_pending (capture s)
     + ticks_with_frame tr)%nat.
Proof.
  revert s. induction tr as [|e tr IH]; intros s; [simpl; lia|].
  rewrite ticks_with_frame_cons. change (run (e :: tr) s) with (run tr (step e s)).
  specialize (IH (step e s)). pose proof (frames_step e s). lia.
Qed.

End FrameCount.

(** X12.  Whatever the events, the image frames handed to the session
    together with the compressions still in flight never outnumber the
    firings of the interval that found a frame to draw: no frame is sent
    twice and none is made up for a skipped tick. *)
Theorem frames_never_outnumber_ticks (tr : list Event) :
  (frames_sent (outbox (channel (run tr initial)))
   + toBlob_pending (capture (run tr initial))
   ≤ ticks_with_frame tr)%nat.
Proof. pose proof (frames_run tr initial). simpl in *. lia. Qed.

(** ** The overlay and the render function *)

Section Overlay.

Lemma prefix_append p s :
  String.prefix p s = true ↔ ∃ rest, s = (p +:+ rest)%string.
Proof.
  revert s. induction p as [|a p IH]; intros s.
  - split; [intros _; by exists s|]. by destruct s.
  - destruct s as [|b s]; simpl.
    + split; [done|]. by intros [rest Hrest].
    + destruct (Ascii.ascii_dec a b) as [->|Hne].
      * rewrite IH. split; intros [rest Hrest]; exists rest.
        -- rewrite Hrest. reflexivity.
        -- by injection Hrest.
      * split; [done|]. intros [rest Hrest]. injection Hrest as Hab _. congruence.
Qed.

(** [includes] decides occurrence as a substring. *)
Lemma includes_occurs needle s : includes needle s = true ↔ occurs_in needle s.
Proof.
  unfold occurs_in. induction s as [|a s IH].
  - cbn [includes]. rewrite orb_false_r, prefix_append. split.
    + intros [rest Hrest]. by exists ""%string, rest.
    + intros ([|b before] & rest & Hs); [by exists rest|discriminate Hs].
  - cbn [includes]. rewrite orb_true_iff, prefix_append, IH. split.
    + intros [[rest Hrest]|(before & rest & Hs)].
      * by exists ""%string, rest.
      * exists (String a before), rest. simpl. by rewrite Hs.
    + intros ([|b before] & rest & Hs).
      * left. by exists rest.
      * right. simpl in Hs. injection Hs as -> Hs. by exists before, rest.
Qed.

Lemma overlay_of_string a msg :
  ∃ o, InstructionOverlay (Some {| action := JString a; message := msg |}) = Ok (Some o)
       ∧ ov_text o = msg
       ∧ ov_icon o = getIcon (JString a)
       ∧ getVisualHint (JString a) = Ok (ov_hint o)
       ∧ ov_glow o = (if includes "fix" a then GlowRed else GlowBlue).
Proof.
  cbv [InstructionOverlay getVisualHint js_includes bind action message].
  destruct (includes "reduce" a), (includes "increase" a); eauto 10.
Qed.

(** [Array.prototype.includes] with a string decides membership of that
    string. *)
Lemma array_includes needle elems :
  existsb (is_string needle) elems = true ↔ JString needle ∈ elems.
Proof.
  induction elems as [|v elems IH]; simpl.
  - split; [done|]. by intros H%not_elem_of_nil.
  - rewrite orb_true_iff, IH, elem_of_cons. split.
    + intros [Hv|Hin]; [left|by right].
      destruct v; try discriminate Hv. simpl in Hv.
      apply String.eqb_eq in Hv. by rewrite Hv.
    + intros [<-|Hin]; [left|by right]. simpl. apply String.eqb_refl.
Qed.

Lemma overlay_of_array elems msg :
  ∃ o, InstructionOverlay (Some {| action := JArray elems; message := msg |}) = Ok (Some o)
       ∧ ov_text o = msg
       ∧ ov_icon o = SpeakerWaveIcon
       ∧ getVisualHint (JArray elems) = Ok (ov_hint o)
       ∧ ov_glow o = (if existsb (is_string "fix") elems then GlowRed else GlowBlue).
Proof.
  cbv [InstructionOverlay getVisualHint js_includes bind action message getIcon].
  destruct (existsb (is_string "reduce") elems), (existsb (is_string "increase") elems);
    eauto 10.
Qed.

Lemma overlay_throws_iff i :
  InstructionOverlay (Some i) = ThrowTypeError ↔
  (∀ a, action i ≠ JString a) ∧ (∀ elems, action i ≠ JArray elems).
Proof.
  destruct i as [act msg]. destruct act as [| |b|n|a|elems].
  - by split.
  - by split.
  - by split.
  - by split.
  - destruct (overlay_of_string a msg) as (o & Ho & _). rewrite Ho.
    split; [done|]. intros [H _]. by destruct (H a).
  - destruct (overlay_of_array elems msg) as (o & Ho & _). rewrite Ho.
    split; [done|]. intros [_ H]. by destruct (H elems).
Qed.

End Overlay.

(** X13.  [getVisualHint] on a string: the hint is the left turn exactly for
    an action in which ["reduce"] occurs, the right turn for an action in
    which ["increase"] occurs and ["reduce"] does not, and there is no hint
    otherwise; an action in which both occur gets the left turn.  On an
    array the same holds with "is an element of" in place of "occurs in": the
    call is then [Array.prototype.includes] and nothing is thrown.  On every
    value that is neither a string nor an array it throws. *)
Theorem visual_hint_by_substring (action : jsval) :
  (∀ a, action = JString a → occurs_in "reduce" a →
        getVisualHint action = Ok (Some TurnLeft))
  ∧ (∀ a, action = JString a → ¬ occurs_in "reduce" a → occurs_in "increase" a →
          getVisualHint action = Ok (Some TurnRight))
  ∧ (∀ a, action = JString a → ¬ occurs_in "reduce" a → ¬ occurs_in "increase" a →
          getVisualHint action = Ok None)
  ∧ (∀ elems, action = JArray elems → JString "reduce" ∈ elems →
              getVisualHint action = Ok (Some TurnLeft))
  ∧ (∀ elems, action = JArray elems →
              JString "reduce" ∉ elems → JString "increase" ∈ elems →
              getVisualHint action = Ok (Some TurnRight))
  ∧ (∀ elems, action = JArray elems →
              JString "reduce" ∉ elems → JString "increase" ∉ elems →
              getVisualHint action = Ok None)
  ∧ ((∀ a, action ≠ JString a) → (∀ elems, action ≠ JArray elems) →
     getVisualHint action = ThrowTypeError).
Proof.
  split; [|split; [|split; [|split; [|split; [|split]]]]].
  - intros a -> Hr%includes_occurs. unfold getVisualHint. simpl. by rewrite Hr.
  - intros a -> Hr Hi%includes_occurs. unfold getVisualHint. simpl.
    destruct (includes "reduce" a) eqn:Hr'; [by apply includes_occurs in Hr'|].
    simpl. by rewrite Hi.
  - intros a -> Hr Hi. unfold getVisualHint. simpl.
    destruct (includes "reduce" a) eqn:Hr'; [by apply includes_occurs in Hr'|].
    simpl. destruct (includes "increase" a) eqn:Hi'; [by apply includes_occurs in Hi'|].
    done.
  - intros elems -> Hr%array_includes. unfold getVisualHint. cbn [js_includes bind].
    by rewrite Hr.
  - intros elems -> Hr Hi%array_includes. unfold getVisualHint. cbn [js_includes bind].
    destruct (existsb (is_string "reduce") elems) eqn:Hr';
      [by apply array_includes in Hr'|].
    by rewrite Hi.
  - intros elems -> Hr Hi. unfold getVisualHint. cbn [js_includes bind].
    destruct (existsb (is_string "reduce") elems) eqn:Hr';
      [by apply array_includes in Hr'|].
    destruct (existsb (is_string "increase") elems) eqn:Hi';
      [by apply array_includes in Hi'|].
    done.
  - intros Hns Hna. destruct action as [| | | |a|elems]; try done.
    + by destruct (Hns a).
    + by destruct (Hna elems).
Qed.

Lemma visual_hint_by_substring_witness :
  getVisualHint (JString "increase_then_reduce") = Ok (Some TurnLeft)
  ∧ getVisualHint (JString "increase_volume") = Ok (Some TurnRight)
  ∧ getVisualHint (JString "success") = Ok None
  ∧ getVisualHint (JArray [JString "increase"; JString "reduce"]) = Ok (Some TurnLeft)
  ∧ getVisualHint (JArray [JString "increase_volume"]) = Ok None
  ∧ getVisualHint JUndefined = ThrowTypeError.
Proof.
  split; [|split; [|split; [|split; [|split]]]].
  - destruct (visual_hint_by_substring (JString "increase_then_reduce")) as (H & _).
    apply (H "increase_then_reduce"%string eq_refl).
    by exists "increase_then_"%string, ""%string.
  - destruct (visual_hint_by_substring (JString "increase_volume")) as (_ & H & _).
    apply (H "increase_volume"%string eq_refl).
    + intros Hr%includes_occurs. discriminate Hr.
    + by exists ""%string, "_volume"%string.
  - destruct (visual_hint_by_substring (JString "success")) as (_ & _ & H & _).
    apply (H "success"%string eq_refl).
    + intros Hr%includes_occurs. discriminate Hr.
    + intros Hr%includes_occurs. discriminate Hr.
  - destruct (visual_hint_by_substring (JArray [JString "increase"; JString "reduce"]))
      as (_ & _ & _ & H & _).
    apply (H _ eq_refl). apply array_includes. reflexivity.
  - destruct (visual_hint_by_substring (JArray [JString "increase_volume"]))
      as (_ & _ & _ & _ & _ & H & _).
    apply (H _ eq_refl).
    + intros Hr%array_includes. discriminate Hr.
    + intros Hr%array_includes. discriminate Hr.
  - destruct (visual_hint_by_substring JUndefined) as (_ & _ & _ & _ & _ & _ & H).
    apply H; discriminate.
Defined.

(** X14.  For each of the ten actions the tool declaration lists, the overlay
    renders and shows the message.  The icon is the down arrow exactly when
    the hint is the left turn; an up arrow always comes with the right turn,
    and the right turn comes with the up arrow except for [increase_treble],
    which has no case in [getIcon]; the glow is red for [fix_buzz] alone; the
    icon of the case ['mute'] is never shown. *)
Theorem overlay_on_tool_actions (a : string) (msg : jsval) :
  a ∈ tool_actions →
  ∃ o, InstructionOverlay (Some {| action := JString a; message := msg |}) = Ok (Some o)
       ∧ ov_text o = msg
       ∧ (ov_icon o = ArrowTrendingDownIcon ↔ ov_hint o = Some TurnLeft)
       ∧ (ov_icon o = ArrowTrendingUpIcon → ov_hint o = Some TurnRight)
       ∧ (ov_hint o = Some TurnRight →
          ov_icon o = ArrowTrendingUpIcon ∨ a = "increase_treble"%string)
       ∧ (ov_glow o = GlowRed ↔ a = "fix_buzz"%string)
       ∧ ov_icon o ≠ SpeakerXMarkIcon.
Proof.
  unfold tool_actions. intros Ha.
  repeat (apply elem_of_cons in Ha as [->|Ha]);
    try (by apply not_elem_of_nil in Ha);
    (eexists; split; [reflexivity|]; simpl;
     repeat split; intros; try discriminate; try reflexivity; auto).
Qed.

Lemma overlay_on_tool_actions_witness :
  ∃ o, InstructionOverlay
         (Some {| action := JString "increase_treble"; message := JString "raise it" |})
       = Ok (Some o)
       ∧ ov_text o = JString "raise it"
       ∧ ov_icon o ≠ SpeakerXMarkIcon.
Proof.
  destruct (overlay_on_tool_actions "increase_treble" (JString "raise it"))
    as (o & Ho & Htext & _ & _ & _ & _ & Hicon).
  - apply (bool_decide_unpack _). vm_compute. exact I.
  - exists o. by split; [|split].
Defined.

(** X15.  The render functions of the component and of its overlay throw a
    [TypeError] exactly when the status is not [ERROR] and the current
    instruction has an action that is neither a string nor an array (an
    array has an [includes] method of its own, so nothing is thrown on it).
    Otherwise the render is the error panel with the error text for [ERROR],
    and else the main screen, with the centre guide exactly when no
    instruction is current and the overlay exactly when one is. *)
Theorem render_outcome (s : State) :
  (render s = ThrowTypeError ↔
     status (channel s) ≠ ERROR
     ∧ ∃ i, currentInstruction (instr s) = Some i
            ∧ (∀ a, action i ≠ JString a) ∧ (∀ elems, action i ≠ JArray elems))
  ∧ (status (channel s) = ERROR → render s = Ok (ErrorPanel (errorMessage (channel s))))
  ∧ (∀ v, render s = Ok (MainScreen v) →
       status (channel s) ≠ ERROR
       ∧ (mv_guide v = true ↔ currentInstruction (instr s) = None)
       ∧ (mv_overlay v = None ↔ currentInstruction (instr s) = None)
       ∧ (mv_label v = LabelConnected ↔ status (channel s) = CONNECTED)
       ∧ mv_visualizer v = isAiSpeaking (playback s)).
Proof.
  unfold render.
  destruct (status (channel s)) eqn:Hst;
    (destruct (currentInstruction (instr s)) as [i|] eqn:Hcur;
     [destruct (InstructionOverlay (Some i)) as [o|] eqn:Ho|]); simpl;
    try (assert (o ≠ None) as Hsome
           by (intros ->; destruct i as [[| | | |a|elems] msg]; try discriminate Ho;
               [destruct (overlay_of_string a msg) as (o' & Ho' & _)
               |destruct (overlay_of_array elems msg) as (o' & Ho' & _)];
               rewrite Ho' in Ho; discriminate Ho));
    (split; [|split]);
    try (intros v [= <-]; simpl; repeat split; try done; try (intros; congruence));
    try (intros [=]; fail); try done;
    try (split; [done|]; intros [_ (i' & [= <-] & Hna)];
         apply overlay_throws_iff in Hna; congruence);
    try (split; [done|]; intros [_ (i' & [=] & _)]; fail);
    try (split; [|done]; intros _; split; [done|]; exists i; split; [done|];
         by apply overlay_throws_iff);
    try (split; [done|]; intros [H _]; by destruct H).
Qed.

Lemma render_outcome_witness :
  render example_speaking ≠ ThrowTypeError
  ∧ render (onerror example_speaking) = Ok (ErrorPanel ConnectionFailed)
  ∧ ∀ v, render example_speaking = Ok (MainScreen v) →
         mv_label v = LabelConnected ∧ mv_guide v ≠ true.
Proof.
  split; [|split].
  - destruct (render_outcome example_speaking) as ([Hthrow _] & _).
    intros H. destruct (Hthrow H) as (_ & i & Hi & Hna & _).
    injection Hi as <-. by destruct (Hna "fix_buzz"%string).
  - destruct (render_outcome (onerror example_speaking)) as (_ & Herr & _).
    apply Herr. reflexivity.
  - intros v Hv.
    destruct (render_outcome example_speaking) as (_ & _ & Hmain).
    destruct (Hmain v Hv) as (_ & Hguide & _ & Hlabel & _).
    split; [by apply Hlabel|]. intros Hg. apply Hguide in Hg. discriminate Hg.
Defined.

(** X16.  After [stopSession] the component never shows the error panel and
    never the connected label, whatever the state before, also when the stop
    follows a channel error: the close that follows an error replaces the
    error panel by the main screen with the connecting label. *)
Theorem view_after_stop (s : State) (v : View) :
  render (stopSession s) = Ok v →
  ∃ mv, v = MainScreen mv
        ∧ mv_label mv = LabelConnecting
        ∧ render (onclose (onerror s)) = Ok v.
Proof.
  unfold render. simpl.
  destruct (InstructionOverlay (currentInstruction (instr s))) as [o|]; [|done].
  simpl. intros [= <-]. eexists. by split; [|split].
Qed.

Lemma view_after_stop_witness :
  ∃ mv, render (stopSession example_speaking) = Ok (MainScreen mv)
        ∧ mv_label mv = LabelConnecting
        ∧ render (onclose (onerror example_speaking)) = Ok (MainScreen mv).
Proof.
  destruct (render (stopSession example_speaking)) as [v|] eqn:Hv; [|discriminate Hv].
  destruct (view_after_stop example_speaking v Hv) as (mv & -> & Hlabel & Hclose).
  exists mv. by split; [|split].
Defined.

(** X17.  While the error panel is shown the [video] and [canvas] elements
    are not rendered, so every firing of the frame interval returns at once:
    after a channel error the interval is still armed, but with the refs as
    the render leaves them no tick captures a frame or starts a compression. *)
Theorem no_capture_on_error_panel (s : State) (id : positive) (ctx frame : bool) :
  (status (channel s) = ERROR → interval_fires id (committed_env s ctx frame) s = s)
  ∧ interval_fires id (committed_env (onerror s) ctx frame) (onerror s) = onerror s
  ∧ timers (browser (onerror s)) = timers (browser s).
Proof.
  assert (∀ s', status (channel s') = ERROR →
                interval_fires id (committed_env s' ctx frame) s' = s') as H.
  { intros s' Hst. unfold interval_fires, frame_callback, committed_env,
      elements_rendered, render. rewrite Hst. simpl.
    by destruct (timers (browser s') !! id) as [[|]|]. }
  split; [apply H|]. split; [by apply H|done].
Qed.

Lemma no_capture_on_error_panel_witness :
  interval_fires 1%positive (committed_env (onerror example_speaking) true true)
    (onerror example_speaking) = onerror example_speaking
  ∧ timers (browser (onerror example_speaking)) !! 1%positive =
    Some (TInterval frame_period).
Proof.
  destruct (no_capture_on_error_panel (onerror example_speaking) 1%positive true true)
    as (Herr & _ & _).
  split; [apply Herr; reflexivity|reflexivity].
Defined.

Lemma unmount_after_error_releases_witness :
  streamRef (capture (step EvError example_speaking)) = Some [TrackLive; TrackLive]
  ∧ status (channel (step EvUnmount (step EvError example_speaking))) = DISCONNECTED
  ∧ (∃ tracks', streamRef (capture (step EvUnmount (step EvError example_speaking))) =
                  Some tracks'
                ∧ length tracks' = 2%nat
                ∧ Forall (λ t, t = TrackEnded) tracks')
  ∧ timers (browser (step EvUnmount (step EvError example_speaking))) !! 1%positive = None
  ∧ timers (browser (step EvUnmount (step EvError example_speaking))) !! 2%positive = None.
Proof.
  destruct (unmount_after_error_releases example_speaking)
    as (Hst & Htracks & Hframe & Htimeout).
  split; [reflexivity|]. split; [exact Hst|].
  split; [apply (Htracks [TrackLive; TrackLive]); reflexivity|].
  split; [apply Hframe; reflexivity|apply Htimeout; reflexivity].
Defined.

(** ** The discovery of the API key *)

Section KeyDiscovery.

Lemma truthy_Some v : truthy v = true → ∃ k, v = Some k ∧ k ≠ ""%string.
Proof.
  destruct v as [k|]; [|done]. simpl. intros H%bool_decide_eq_true. eauto.
Qed.

Lemma truthy_Some_2 k : k ≠ ""%string → truthy (Some k) = true.
Proof. intros Hk. simpl. by apply bool_decide_eq_true_2. Qed.

Lemma js_or_truthy a b : truthy (js_or a b) = truthy a || truthy b.
Proof. unfold js_or. destruct (truthy a) eqn:Ha; [by rewrite Ha|done]. Qed.

Lemma js_or_l a b : truthy a = true → js_or a b = a.
Proof. unfold js_or. by intros ->. Qed.

Lemma js_or_r a b : truthy a = false → js_or a b = b.
Proof. unfold js_or. by intros ->. Qed.

Lemma lookup_result_found k : k ≠ ""%string → lookup_result (Some k) = KeyFound k.
Proof. intros Hk. unfold lookup_result. by rewrite truthy_Some_2. Qed.

Lemma lookup_result_none v : truthy v = false → lookup_result v = KeyNotFound.
Proof. unfold lookup_result. destruct v; [by intros ->|done]. Qed.

Lemma find_api_key_env g env :
  window_process g = Some (Some env) →
  find_api_key g =
    let t := env !! "API_KEY"%string in
    let k1 := match defined_API_KEY g with Some v => v | None => t end in
    let k2 := if truthy k1 then k1 else t in
    let k3 := if truthy k2 then k2 else env_get (import_meta_env g) "VITE_API_KEY" in
    lookup_result k3.
Proof. intros H. unfold find_api_key. rewrite H. by destruct (defined_API_KEY g). Qed.

(** The environment the polyfill leaves in [window.process.env]. *)
Lemma polyfill_env g :
  let chosen := js_or (env_get (import_meta_env g) "VITE_API_KEY")
                  (js_or (env_get (import_meta_env g) "REACT_APP_API_KEY")
                     (process_env_or_empty g !! "API_KEY"%string)) in
  index_polyfill g =
  {| import_meta_env := import_meta_env g;
     window_process :=
       Some (Some (if truthy chosen
                   then <["API_KEY"%string := default ""%string chosen]>
                          (process_env_or_empty g)
                   else process_env_or_empty g));
     defined_API_KEY := defined_API_KEY g |}.
Proof.
  intros chosen. unfold index_polyfill. fold chosen.
  destruct chosen as [k|]; [|done]. by destruct (truthy (Some k)).
Qed.

Lemma polyfill_key g :
  let chosen := js_or (env_get (import_meta_env g) "VITE_API_KEY")
                  (js_or (env_get (import_meta_env g) "REACT_APP_API_KEY")
                     (process_env_or_empty g !! "API_KEY"%string)) in
  ∃ env, window_process (index_polyfill g) = Some (Some env)
         ∧ (truthy chosen = true → env !! "API_KEY"%string = chosen)
         ∧ (truthy chosen = false →
            env = process_env_or_empty g ∧ truthy (env !! "API_KEY"%string) = false).
Proof.
  intros chosen. rewrite polyfill_env. fold chosen. cbn [window_process].
  eexists. split; [reflexivity|].
  destruct (truthy chosen) eqn:Htr.
  - destruct (truthy_Some _ Htr) as (k & -> & _). split; [|done].
    intros _. apply lookup_insert_eq.
  - split; [done|]. intros _. split; [done|].
    unfold chosen in Htr. rewrite !js_or_truthy in Htr.
    by apply orb_false_elim in Htr as [_ [_ ?]%orb_false_elim].
Qed.

Lemma js_or_again v r x :
  js_or v (js_or r (js_or v (js_or r x))) = js_or v (js_or r x).
Proof.
  unfold js_or. destruct (truthy v) eqn:Hv; [done|].
  by destruct (truthy r) eqn:Hr.
Qed.

(** The value the look-up settles on once the polyfill has run. *)
Lemma find_api_key_polyfilled g :
  let chosen :=
    js_or (mjoin (defined_API_KEY g))
      (js_or (env_get (import_meta_env g) "VITE_API_KEY")
         (js_or (env_get (import_meta_env g) "REACT_APP_API_KEY")
            (process_env_or_empty g !! "API_KEY"%string))) in
  ∃ k3, find_api_key (index_polyfill g) = lookup_result k3
        ∧ truthy k3 = truthy chosen
        ∧ (truthy chosen = true → k3 = chosen).
Proof.
  intros chosen.
  destruct (polyfill_key g) as (env & Henv & Hyes & Hno).
  set (inner := js_or (env_get (import_meta_env g) "VITE_API_KEY")
                  (js_or (env_get (import_meta_env g) "REACT_APP_API_KEY")
                     (process_env_or_empty g !! "API_KEY"%string))) in *.
  rewrite (find_api_key_env _ env Henv).
  change (defined_API_KEY (index_polyfill g)) with (defined_API_KEY g).
  change (import_meta_env (index_polyfill g)) with (import_meta_env g).
  cbv zeta.
  set (t := env !! "API_KEY"%string) in *.
  set (v := env_get (import_meta_env g) "VITE_API_KEY") in *.
  set (k1 := match defined_API_KEY g with Some d => d | None => t end).
  assert (∃ k3, (if truthy (if truthy k1 then k1 else t)
                 then (if truthy k1 then k1 else t) else v) = k3
                ∧ truthy k3 = truthy chosen
                ∧ (truthy chosen = true → k3 = chosen)) as (k3 & Hk3 & Htr & Heq).
  { destruct (truthy (mjoin (defined_API_KEY g))) eqn:Hd.
    - (* the substituted value is a key *)
      assert (k1 = mjoin (defined_API_KEY g)) as Hk1.
      { unfold k1. by destruct (defined_API_KEY g) as [d|]. }
      rewrite Hk1, Hd, Hd. unfold chosen. rewrite js_or_l by done. eauto.
    - unfold chosen. rewrite js_or_r by done.
      destruct (truthy inner) eqn:Hin.
      + specialize (Hyes eq_refl).
        assert ((if truthy k1 then k1 else t) = t) as ->.
        { unfold k1. destruct (defined_API_KEY g) as [d|]; simpl in Hd.
          - by rewrite Hd.
          - by destruct (truthy t). }
        rewrite Hyes, Hin. eauto.
      + destruct (Hno eq_refl) as [_ Ht].
        assert ((if truthy k1 then k1 else t) = t) as ->.
        { unfold k1. destruct (defined_API_KEY g) as [d|]; simpl in Hd.
          - by rewrite Hd.
          - by destruct (truthy t). }
        rewrite Ht.
        assert (truthy v = false) as Hv.
        { unfold inner in Hin. rewrite js_or_truthy in Hin.
          by apply orb_false_elim in Hin as [? _]. }
        exists v. by rewrite Hv. }
  exists k3. by rewrite Hk3.
Qed.

End KeyDiscovery.

(** X18.  Once the polyfill of [index.tsx] has run, the key look-up of
    [connectToGemini] never fails on a missing [process] or [env], and it
    finds the first non-empty value among the substituted
    [process.env.API_KEY], [VITE_API_KEY], [REACT_APP_API_KEY] and the
    [API_KEY] already in [window.process.env]; it ends in [MISSING_API_KEY]
    exactly when all of them are absent or empty. *)
Theorem key_lookup_after_polyfill (g : Globals) :
  let chosen :=
    js_or (mjoin (defined_API_KEY g))
      (js_or (env_get (import_meta_env g) "VITE_API_KEY")
         (js_or (env_get (import_meta_env g) "REACT_APP_API_KEY")
            (process_env_or_empty g !! "API_KEY"%string))) in
  find_api_key (index_polyfill g) ≠ LookupThrows
  ∧ (∀ k, chosen = Some k → k ≠ ""%string →
          find_api_key (index_polyfill g) = KeyFound k)
  ∧ (truthy chosen = false → find_api_key (index_polyfill g) = KeyNotFound).
Proof.
  intros chosen.
  destruct (find_api_key_polyfilled g) as (k3 & -> & Htr & Heq).
  fold chosen in Htr, Heq.
  split; [|split].
  - unfold lookup_result. destruct k3 as [k|]; simpl; [by case_bool_decide|done].
  - intros k Hk Hne.
    assert (truthy chosen = true) as Hc by (rewrite Hk; by apply truthy_Some_2).
    rewrite (Heq Hc), Hk. by apply lookup_result_found.
  - intros Hc. apply lookup_result_none. by rewrite Htr.
Qed.

Lemma key_lookup_after_polyfill_witness :
  find_api_key (index_polyfill
                  {| import_meta_env := Some {[ "VITE_API_KEY"%string := "vite-key"%string ]};
                     window_process := Some (Some {[ "API_KEY"%string := "old-key"%string ]});
                     defined_API_KEY := None |}) = KeyFound "vite-key"
  ∧ find_api_key (index_polyfill
                    {| import_meta_env := None; window_process := None;
                       defined_API_KEY := Some None |}) = KeyNotFound.
Proof.
  split.
  - destruct (key_lookup_after_polyfill
                {| import_meta_env := Some {[ "VITE_API_KEY"%string := "vite-key"%string ]};
                   window_process := Some (Some {[ "API_KEY"%string := "old-key"%string ]});
                   defined_API_KEY := None |}) as (_ & Hfound & _).
    apply Hfound; [vm_compute; reflexivity|discriminate].
  - destruct (key_lookup_after_polyfill
                {| import_meta_env := None; window_process := None;
                   defined_API_KEY := Some None |}) as (_ & _ & Hnone).
    apply Hnone. reflexivity.
Defined.

(** X19.  Running the polyfill of [index.tsx] a second time changes nothing. *)
Theorem index_polyfill_idempotent (g : Globals) :
  index_polyfill (index_polyfill g) = index_polyfill g.
Proof.
  rewrite (polyfill_env (index_polyfill g)).
  rewrite !(polyfill_env g).
  set (v := env_get (import_meta_env g) "VITE_API_KEY").
  set (r := env_get (import_meta_env g) "REACT_APP_API_KEY").
  set (env0 := process_env_or_empty g).
  cbn [import_meta_env defined_API_KEY window_process process_env_or_empty].
  fold v r. do 3 f_equal.
  destruct (truthy (js_or v (js_or r (env0 !! "API_KEY"%string)))) eqn:Htr.
  - destruct (truthy_Some _ Htr) as (k & Hk & Hne).
    rewrite Hk. simpl. rewrite lookup_insert_eq.
    rewrite <- Hk, js_or_again, Htr, Hk. simpl. apply insert_insert_eq.
  - by rewrite Htr.
Qed.

(** X20.  With the polyfill in place, mounting the component ends with the
    text of the missing API key exactly when no key is configured anywhere;
    the status is then [ERROR] and neither the stream nor an audio context
    has been asked for.  When a key is found the text of the missing key is
    never shown, however the media set-up goes. *)
Theorem missing_key_text (g : Globals) (m : MediaOutcome) (s : State) :
  let chosen :=
    js_or (mjoin (defined_API_KEY g))
      (js_or (env_get (import_meta_env g) "VITE_API_KEY")
         (js_or (env_get (import_meta_env g) "REACT_APP_API_KEY")
            (process_env_or_empty g !! "API_KEY"%string))) in
  let s' := mount_effect (index_polyfill g) m s in
  (errorMessage (channel s') = ApiKeyMissing ↔ truthy chosen = false)
  ∧ (truthy chosen = false →
       status (channel s') = ERROR ∧ capture s' = capture s ∧ playback s' = playback s).
Proof.
  intros chosen s'. unfold s', mount_effect.
  destruct (find_api_key_polyfilled g) as (k3 & -> & Htr & Heq).
  fold chosen in Htr, Heq.
  destruct (truthy chosen) eqn:Hc.
  - destruct (truthy_Some _ Htr) as (k & -> & Hne).
    rewrite (lookup_result_found k Hne). split; [|done].
    split; [|done]. by destruct m.
  - rewrite (lookup_result_none k3 Htr). split; [done|]. by intros _.
Qed.

Lemma missing_key_text_witness :
  let g := {| import_meta_env := Some ∅; window_process := None;
              defined_API_KEY := None |} in
  errorMessage (channel (mount_effect (index_polyfill g) (MediaReady 2) initial)) =
    ApiKeyMissing
  ∧ status (channel (mount_effect (index_polyfill g) (MediaReady 2) initial)) = ERROR
  ∧ capture (mount_effect (index_polyfill g) (MediaReady 2) initial) = capture initial.
Proof.
  intros g.
  destruct (missing_key_text g (MediaReady 2) initial) as [Htext Hrest].
  assert (truthy (js_or (mjoin (defined_API_KEY g))
            (js_or (env_get (import_meta_env g) "VITE_API_KEY")
               (js_or (env_get (import_meta_env g) "REACT_APP_API_KEY")
                  (process_env_or_empty g !! "API_KEY"%string)))) = false) as Hno
    by reflexivity.
  split; [by apply Htext|]. destruct (Hrest Hno) as (Hst & Hcap & _). by split.
Defined.
